(** * oneapi-misc: the recursive Fibonacci benchmark and its siblings

    A shallow embedding of [recursive-fib.cpp] (the workload, the job
    count, the load-balance tracker, the statistics, the pinning
    observer and the driver), of the driver of [noploop.cpp] and of
    [mutexes.cpp], followed by the properties of the specification
    that were checked against them.

    Conventions.
    - [int], [unsigned] and [u64] values are integers of [Z]; every
      conversion and every addition that the C++ code performs in a
      fixed width is written with its reduction ([to_int],
      [to_unsigned], [to_u64]).
    - [double] is IEEE 754 binary64, the kernel's primitive [float];
      each operation rounds once, to nearest even.
    - A function that can stop the process or leave the defined part of
      C++ returns an [outcome]. *)

From Equations Require Import Equations.
From Stdlib Require Import ZArith List Lia Bool String.
From Stdlib Require Import Floats Uint63.
Import ListNotations.
Local Open Scope Z_scope.

(** ** Machine integers *)

(** [std::uint64_t]. *)
Definition to_u64 (z : Z) : Z := z mod 2 ^ 64.

(** [unsigned]. *)
Definition to_unsigned (z : Z) : Z := z mod 2 ^ 32.

(** [int], two's complement. *)
Definition to_int (z : Z) : Z := (z + 2 ^ 31) mod 2 ^ 32 - 2 ^ 31.

(** ** Doubles *)

(** [(double)i] for a signed integer of at most 64 bits. *)
Definition double_of_int (z : Z) : float :=
  if z <? 0 then PrimFloat.opp (PrimFloat.of_uint63 (Uint63.of_Z (- z)))
  else PrimFloat.of_uint63 (Uint63.of_Z z).

(** [(double)x] for a [u64].  Below 2^63 the value is converted
    directly; above, the value is halved with its lowest bit kept
    sticky, converted and doubled, which rounds as the direct
    conversion does. *)
Definition double_of_u64 (x : Z) : float :=
  if x <? 2 ^ 63 then PrimFloat.of_uint63 (Uint63.of_Z x)
  else
    let h := PrimFloat.of_uint63
               (Uint63.of_Z (Z.lor (Z.shiftr x 1) (Z.land x 1))) in
    PrimFloat.add h h.

(** ** Outcomes *)

Inductive outcome (A : Type) : Type :=
| Returns (a : A)
| Dies (diagnostic : string)
| Undefined.

Arguments Returns {A} a.
Arguments Dies {A} diagnostic.
Arguments Undefined {A}.

(** ** The workload *)

(** [u64 parallel_fib(int n)]: both branches of [parallel_invoke] are
    joined before the sum is formed, so the value does not depend on
    the schedule. *)
Equations? parallel_fib (n : Z) : Z by wf (Z.to_nat n) lt :=
  parallel_fib n with Z_lt_dec n 2 := {
    | left _ := to_u64 n
    | right _ := to_u64 (parallel_fib (n - 1) + parallel_fib (n - 2)) }.
Proof. all: lia. Qed.

(** [u64 threads_created(int n)]. *)
Equations? threads_created (n : Z) : Z by wf (Z.to_nat n) lt :=
  threads_created n with Z_lt_dec n 2 := {
    | left _ := 0
    | right _ := to_u64 (to_u64 (2 + threads_created (n - 1))
                         + threads_created (n - 2)) }.
Proof. all: lia. Qed.

(** ** The load-balance tracker *)

Record load_balance : Type := {
  allowed : Z;
  tbb : list Z
}.

(** [load_balance::load_balance(int allowed, int slots)]. *)
Definition load_balance_new (allowed slots : Z) : load_balance :=
  {| allowed := allowed; tbb := repeat 0 (Z.to_nat slots) |}.

(** [v[i] = x] on a vector. *)
Fixpoint assign (v : list Z) (i : nat) (x : Z) : list Z :=
  match v, i with
  | [], _ => []
  | _ :: t, O => x :: t
  | h :: t, S j => h :: assign t j x
  end.

(** [load_balance::take_measurement()], run by the thread that holds
    slot [index] of the arena.  An index past the vector is undefined
    behaviour ([None]). *)
Definition take_measurement (index : nat) (lb : load_balance) : option load_balance :=
  match nth_error (tbb lb) index with
  | Some c => Some {| allowed := allowed lb;
                      tbb := assign (tbb lb) index (to_u64 (c + 1)) |}
  | None => None
  end.

(** *** The instrumented workload, every interleaving

    A call of [parallel_fib_lb] is a task; [parallel_invoke] leaves two
    tasks that run in any interleaving and are joined when both have
    returned.  One step is one action of one thread; a measurement is
    one step, since a slot is held by one thread at a time. *)
Inductive task : Type :=
| Call (n : Z)
| Invoke (first second : task)
| Done (v : Z).

Inductive lb_step : load_balance * task -> load_balance * task -> Prop :=
| step_leaf lb n :
    n < 2 ->
    lb_step (lb, Call n) (lb, Done (to_u64 n))
| step_measure lb lb' n index :
    2 <= n ->
    take_measurement index lb = Some lb' ->
    lb_step (lb, Call n) (lb', Invoke (Call (n - 1)) (Call (n - 2)))
| step_first lb lb' t t' u :
    lb_step (lb, t) (lb', t') ->
    lb_step (lb, Invoke t u) (lb', Invoke t' u)
| step_second lb lb' t u u' :
    lb_step (lb, u) (lb', u') ->
    lb_step (lb, Invoke t u) (lb', Invoke t u')
| step_join lb x y :
    lb_step (lb, Invoke (Done x) (Done y)) (lb, Done (to_u64 (x + y))).

Inductive lb_steps : load_balance * task -> load_balance * task -> Prop :=
| steps_refl c : lb_steps c c
| steps_cons c1 c2 c3 : lb_step c1 c2 -> lb_steps c2 c3 -> lb_steps c1 c3.

(** A completed run of [parallel_fib_lb(n, lb)]: it returned [v] and
    left the tracker as [lb']. *)
Definition completed_run (n : Z) (lb : load_balance) (v : Z) (lb' : load_balance) : Prop :=
  lb_steps (lb, Call n) (lb', Done v).

(** *** The instrumented workload, one schedule

    [u64 parallel_fib_lb(int n, load_balance& lb)] with the first
    branch run to its end before the second; [index_of k] is the slot
    that [current_thread_index()] gives to the [k]-th measurement. *)
Equations? parallel_fib_lb (index_of : nat -> nat) (n : Z) (k : nat) (lb : load_balance)
  : outcome (Z * nat * load_balance) by wf (Z.to_nat n) lt :=
  parallel_fib_lb index_of n k lb with Z_lt_dec n 2 := {
    | left _ := Returns (to_u64 n, k, lb)
    | right _ with take_measurement (index_of k) lb := {
        | None := Undefined
        | Some lb1 with parallel_fib_lb index_of (n - 1) (S k) lb1 := {
            | Returns (x, k2, lb2) with parallel_fib_lb index_of (n - 2) k2 lb2 := {
                | Returns (y, k3, lb3) := Returns (to_u64 (x + y), k3, lb3)
                | Dies d := Dies d
                | Undefined := Undefined }
            | Dies d := Dies d
            | Undefined := Undefined } } }.
Proof. all: lia. Qed.

(** ** Statistics *)

Record statistics : Type := {
  min : Z;
  max : Z;
  avg : float;
  dev : float
}.

(** [*std::min_element(first, last)] and [*std::max_element(first, last)];
    on an empty range both algorithms return [last], which cannot be
    dereferenced ([None]). *)
Definition min_element (v : list Z) : option Z :=
  match v with
  | [] => None
  | x :: t => Some (fold_left Z.min t x)
  end.

Definition max_element (v : list Z) : option Z :=
  match v with
  | [] => None
  | x :: t => Some (fold_left Z.max t x)
  end.

(** [std::accumulate(first, last, 0)]: the accumulator has the type of
    the literal [0], which is [int]; each sum is formed in [u64] and
    stored back into the [int]. *)
Definition accumulate_int (v : list Z) (init : Z) : Z :=
  fold_left (fun acc x => to_int (to_u64 (to_u64 acc + x))) v init.

(** [std::accumulate(first, last, (double)0.0, op)]. *)
Definition accumulate_double (op : float -> Z -> float) (v : list Z) (init : float) : float :=
  fold_left op v init.

(** [statistics calc_statistics(const std::vector<u64>& v)]. *)
Definition calc_statistics (v : list Z) : outcome statistics :=
  match min_element v, max_element v with
  | Some lo, Some hi =>
      let count := double_of_u64 (Z.of_nat (List.length v)) in
      let res_avg := PrimFloat.div (double_of_int (accumulate_int v 0)) count in
      let dev_lambda := fun (acc : float) (x : Z) =>
        let delta := PrimFloat.sub (double_of_u64 x) res_avg in
        PrimFloat.add acc (PrimFloat.mul delta delta) in
      Returns {| min := lo; max := hi; avg := res_avg;
                 dev := PrimFloat.sqrt
                          (PrimFloat.div (accumulate_double dev_lambda v 0%float) count) |}
  | _, _ => Undefined
  end.

(** [std::remove_copy(first, last, std::back_inserter(v), value)] into
    an empty [v]. *)
Definition remove_copy (l : list Z) (value : Z) : list Z :=
  filter (fun x => negb (x =? value)) l.

(** [std::fill_n(std::back_inserter(v), count, value)]; nothing is
    appended when [count] is not positive. *)
Definition fill_n (v : list Z) (count : Z) (value : Z) : list Z :=
  v ++ repeat value (Z.to_nat count).

(** The sample that [operator<<] hands to [calc_statistics]. *)
Definition sample (lb : load_balance) : list Z :=
  let v := remove_copy (tbb lb) 0 in
  fill_n v (allowed lb - Z.of_nat (List.length v)) 0.

(** [std::ostream& operator<<(std::ostream&, const load_balance&)]:
    the three fields written, minimum, deviation, maximum. *)
Definition operator_lshift (lb : load_balance) : outcome (Z * float * Z) :=
  match calc_statistics (sample lb) with
  | Returns stats => Returns (min stats, dev stats, max stats)
  | Dies d => Dies d
  | Undefined => Undefined
  end.

(** ** The pinning observer *)

Record pinning_observer : Type := {
  nprocs : Z;
  counter : Z
}.

(** [pinning_observer::pinning_observer(arena)], [get_nprocs()] given. *)
Definition pinning_observer_new (get_nprocs : Z) : pinning_observer :=
  {| nprocs := to_unsigned get_nprocs; counter := 0 |}.

(** [pinning_observer::on_scheduler_entry(bool)] of recursive-fib.cpp.
    [sched_setaffinity cpu] is [None] when the call succeeds on the
    mask that holds [cpu] alone, and the text of [strerror(errno)]
    otherwise.  The result is the observer after the entry and the
    hardware unit the entering thread is pinned to. *)
Definition on_scheduler_entry (sched_setaffinity : Z -> option string)
    (is_worker : bool) (o : pinning_observer) : outcome (pinning_observer * Z) :=
  if nprocs o =? 0 then Undefined
  else
    let cpu := counter o mod nprocs o in
    let o' := {| nprocs := nprocs o; counter := to_unsigned (counter o + 1) |} in
    match sched_setaffinity cpu with
    | None => Returns (o', cpu)
    | Some e => Dies ("sched_setaffinity: " ++ e)%string
    end.

(** The entries of a sequence of threads into the arena, in the order
    of their increments of the shared counter: the hardware units
    given out, up to the first failure. *)
Fixpoint scheduler_entries (sched_setaffinity : Z -> option string)
    (joins : list bool) (o : pinning_observer) : list Z * outcome pinning_observer :=
  match joins with
  | [] => ([], Returns o)
  | is_worker :: rest =>
      match on_scheduler_entry sched_setaffinity is_worker o with
      | Returns (o', cpu) =>
          let (cpus, r) := scheduler_entries sched_setaffinity rest o' in
          (cpu :: cpus, r)
      | Dies d => ([], Dies d)
      | Undefined => ([], Undefined)
      end
  end.

(** ** The drivers *)

(** What a process leaves behind: what it wrote, in order, and how it
    ended. *)
Inductive event (L : Type) : Type :=
| Stdout (l : L)
| Stderr (message : string).

Arguments Stdout {L} l.
Arguments Stderr {L} message.

Inductive ending : Type :=
| Exit_success
| Exit_failure
| Undefined_behaviour.

(** Standard input as the extractions of the read loop see it: the
    records that were extracted in full, and whether [std::cin.eof()]
    holds once an extraction has failed. *)
Record stdin (R : Type) : Type := {
  records : list R;
  eof : bool
}.

Arguments records {R} s.
Arguments eof {R} s.

(** What the driver cannot decide: the slots of the implicit arena,
    the wall-clock time of each timed run, and the slot each
    measurement of each instrumented run observes. *)
Record runtime : Type := {
  max_concurrency : Z;
  elapsed : nat -> float;
  current_thread_index : nat -> nat -> nat
}.

Module recursive_fib.

(** One line of output. *)
Record line : Type := {
  fib_num : Z;
  fib_number : Z;
  nthread : Z;
  jobs : float;
  total_time : float;
  throughput : float;
  lb_min : Z;
  lb_dev : float;
  lb_max : Z
}.

(** An argument as [strtoul(argv[i], &end, 10)] reads it: the value
    returned, and whether [*end] is the end of the string. *)
Record argument : Type := {
  strtoul : Z;
  at_end : bool
}.

(** The loop over [argv]. *)
Fixpoint parse_arguments (args : list argument) (tests : Z) : outcome Z :=
  match args with
  | [] => Returns tests
  | a :: rest =>
      let tests := to_int (strtoul a) in
      if negb (at_end a) then Dies "argument must be a valid integer"
      else if tests <? 1 then Dies "argument must be greater than 0"
      else parse_arguments rest tests
  end.

(** The body of the loop over [tests], for run number [run].  The
    arena built from [nthread] and its observer are never entered: the
    workload runs in the implicit arena of the calling thread. *)
Definition repetition (rt : runtime) (fib_num nthread : Z) (run : nat) : outcome line :=
  let result := parallel_fib fib_num in
  let total_time := elapsed rt run in
  let jobs := double_of_u64 (threads_created fib_num) in
  let throughput := PrimFloat.div jobs total_time in
  let nslots := max_concurrency rt in
  let lb := load_balance_new (to_int nthread) nslots in
  match parallel_fib_lb (current_thread_index rt run) fib_num 0 lb with
  | Returns (_, _, lb') =>
      match operator_lshift lb' with
      | Returns (lo, d, hi) =>
          Returns {| fib_num := fib_num; fib_number := result; nthread := nthread;
                     jobs := jobs; total_time := total_time; throughput := throughput;
                     lb_min := lo; lb_dev := d; lb_max := hi |}
      | Dies d => Dies d
      | Undefined => Undefined
      end
  | Dies d => Dies d
  | Undefined => Undefined
  end.

(** [for (int i = 0; i < tests; ++i)]: the lines written and the
    number of the next run. *)
Fixpoint repetitions (rt : runtime) (fib_num nthread : Z) (tests : nat) (run : nat)
  : list (event line) * outcome nat :=
  match tests with
  | O => ([], Returns run)
  | S tests' =>
      match repetition rt fib_num nthread run with
      | Returns l =>
          let (out, r) := repetitions rt fib_num nthread tests' (S run) in
          (Stdout l :: out, r)
      | Dies d => ([], Dies d)
      | Undefined => ([], Undefined)
      end
  end.

(** [while (std::cin >> fib_num >> nthread)]. *)
Fixpoint read_loop (rt : runtime) (tests : Z) (input : list (Z * Z)) (run : nat)
  : list (event line) * outcome nat :=
  match input with
  | [] => ([], Returns run)
  | (fib_num, nthread) :: rest =>
      match repetitions rt fib_num nthread (Z.to_nat tests) run with
      | (out, Returns run') =>
          let (out', r) := read_loop rt tests rest run' in
          (out ++ out', r)
      | (out, r) => (out, r)
      end
  end.

(** What the macro [die(str)] writes on [std::cerr] before
    [std::exit(EXIT_FAILURE)]: the program name, a colon and a space,
    then [str]. *)
Definition die (progname str : string) : string :=
  (progname ++ ": " ++ str)%string.

(** [int main(int argc, char *argv[])]; [progname] is [argv[0]], which
    [main] stores first, and [args] is the rest of [argv]. *)
Definition main (rt : runtime) (progname : string) (args : list argument)
    (input : stdin (Z * Z)) : list (event line) * ending :=
  match parse_arguments args 1 with
  | Returns tests =>
      match read_loop rt tests (records input) 0 with
      | (out, Returns _) =>
          if eof input then (out, Exit_success)
          else (out ++ [Stderr (die progname "error reading from stdin")], Exit_failure)
      | (out, Dies d) => (out ++ [Stderr (die progname d)], Exit_failure)
      | (out, Undefined) => (out, Undefined_behaviour)
      end
  | Dies d => ([Stderr (die progname d)], Exit_failure)
  | Undefined => ([], Undefined_behaviour)
  end.

End recursive_fib.

Module noploop.

(** One line of output. *)
Record line : Type := {
  method : Z;
  threads : Z;
  iterations : Z;
  time : float;
  thruput : float
}.

(** [argv] as [main] reads it: nothing after the program name, a first
    argument other than [-c], or [-c] with what [atoi(argv[2])] gives
    ([None] when there is no [argv[2]]). *)
Inductive arguments : Type :=
| No_argument
| Other_argument
| Count_option (atoi : option Z).

Definition parse_arguments (args : arguments) : outcome Z :=
  match args with
  | No_argument => Undefined
  | Other_argument => Returns 1
  | Count_option None => Undefined
  | Count_option (Some c) => Returns (to_int c)
  end.

(** [for (int i = 0; i < count; i++)]: the workload computes nothing,
    a line carries the record and the time measured. *)
Fixpoint repetitions (rt : runtime) (method threads iterations : Z) (count : nat) (run : nat)
  : list (event line) * nat :=
  match count with
  | O => ([], run)
  | S count' =>
      let time := elapsed rt run in
      let thruput := PrimFloat.div (double_of_u64 iterations) time in
      let (out, r) := repetitions rt method threads iterations count' (S run) in
      (Stdout {| method := method; threads := threads; iterations := iterations;
                 time := time; thruput := thruput |} :: out, r)
  end.

(** [while (std::cin >> method >> threads >> iterations)]. *)
Fixpoint read_loop (rt : runtime) (count : Z) (input : list (Z * Z * Z)) (run : nat)
  : list (event line) :=
  match input with
  | [] => []
  | (method, threads, iterations) :: rest =>
      if threads <? 2 then
        Stderr "Threads must be < 2" :: read_loop rt count rest run
      else if (0 <=? method) && (method <=? 3) then
        let (out, run') := repetitions rt method threads iterations (Z.to_nat count) run in
        out ++ read_loop rt count rest run'
      else
        Stderr "Method must be in {0, 1, 2, 3}" :: read_loop rt count rest run
  end.

(** [int main(int argc, char *argv[])]. *)
Definition main (rt : runtime) (args : arguments) (input : stdin (Z * Z * Z))
  : list (event line) * ending :=
  match parse_arguments args with
  | Returns count =>
      if count <? 1 then ([Stderr "count must be >= 1"], Exit_failure)
      else
        let out := read_loop rt count (records input) 0 in
        if eof input then (out, Exit_success)
        else (out ++ [Stderr "Could not read from cin"], Exit_failure)
  | Dies d => ([Stderr d], Exit_failure)
  | Undefined => ([], Undefined_behaviour)
  end.

End noploop.

(** ** The lock benchmark, mutexes.cpp *)

Module mutexes.

(** [argv[1]] as [strtoul(argv[1], &end, 10)] reads it: its text, the
    value returned, and whether [*end] is the end of the string. *)
Record argument : Type := {
  text : string;
  strtoul : Z;
  at_end : bool
}.

(** [u64 parse_args(int argc, char *argv[])]; [args] is [argv]
    without the program name. *)
Definition parse_args (progname : string) (args : list argument) : outcome Z :=
  match args with
  | [a] =>
      let iterations := strtoul a in
      if iterations =? 2 ^ 64 - 1 then Dies (text a ++ " overflows uint64_t")%string
      else if negb (at_end a) then Dies ("could not parse `" ++ text a ++ "'")%string
      else Returns iterations
  | _ => Dies ("usage: " ++ progname ++ " <n_iterations>")%string
  end.

(** The objects of [main]: the deque, front first, and whether each
    lock is held. *)
Record state : Type := {
  deque : list Z;
  mutex : bool;
  atomic : bool;
  spin_mutex : bool;
  v1_mutex : bool
}.

(** The [lock] and [unlock] arguments of [SEQ]. *)
Inductive guard : Type :=
| Unguarded
| By_mutex
| By_atomic
| By_spin_mutex
| By_v1_mutex.

(** The [push] and [pop] arguments of [SEQ]. *)
Inductive action : Type :=
| Nop
| Push_front
| Pop_back.

(** A statement of the single thread goes on, waits for ever, ends
    the process by an exception that nothing catches, or leaves the
    defined part of C++. *)
Inductive progress (A : Type) : Type :=
| Continues (a : A)
| Waits
| Aborts
| Unspecified.

Arguments Continues {A} a.
Arguments Waits {A}.
Arguments Aborts {A}.
Arguments Unspecified {A}.

(** [mutex.lock()], [while (atomic); atomic = true],
    [spin_mutex.lock()], [v1_mutex.lock()]: the thread that holds a
    lock and takes it again waits for ever, and has undefined
    behaviour on a [std::mutex]. *)
Definition lock (g : guard) (st : state) : progress state :=
  match g with
  | Unguarded => Continues st
  | By_mutex =>
      if mutex st then Unspecified
      else Continues {| deque := deque st; mutex := true; atomic := atomic st;
                        spin_mutex := spin_mutex st; v1_mutex := v1_mutex st |}
  | By_atomic =>
      if atomic st then Waits
      else Continues {| deque := deque st; mutex := mutex st; atomic := true;
                        spin_mutex := spin_mutex st; v1_mutex := v1_mutex st |}
  | By_spin_mutex =>
      if spin_mutex st then Waits
      else Continues {| deque := deque st; mutex := mutex st; atomic := atomic st;
                        spin_mutex := true; v1_mutex := v1_mutex st |}
  | By_v1_mutex =>
      if v1_mutex st then Waits
      else Continues {| deque := deque st; mutex := mutex st; atomic := atomic st;
                        spin_mutex := spin_mutex st; v1_mutex := true |}
  end.

(** [mutex.unlock()], [atomic = false], [spin_mutex.unlock()],
    [v1_mutex.unlock()]; a [std::mutex] must be held to be unlocked. *)
Definition unlock (g : guard) (st : state) : progress state :=
  match g with
  | Unguarded => Continues st
  | By_mutex =>
      if mutex st
      then Continues {| deque := deque st; mutex := false; atomic := atomic st;
                        spin_mutex := spin_mutex st; v1_mutex := v1_mutex st |}
      else Unspecified
  | By_atomic =>
      Continues {| deque := deque st; mutex := mutex st; atomic := false;
                   spin_mutex := spin_mutex st; v1_mutex := v1_mutex st |}
  | By_spin_mutex =>
      Continues {| deque := deque st; mutex := mutex st; atomic := atomic st;
                   spin_mutex := false; v1_mutex := v1_mutex st |}
  | By_v1_mutex =>
      Continues {| deque := deque st; mutex := mutex st; atomic := atomic st;
                   spin_mutex := spin_mutex st; v1_mutex := false |}
  end.

(** [asm("NOP")], [deque.push_front(i)] with [i] converted to [int],
    [deque.pop_back()], which needs an element.  [capacity] is the
    number of elements the process can keep in the deque: at most
    [deque::max_size()], and fewer where memory ends before; a deque
    asked to grow beyond it throws [std::length_error] or
    [std::bad_alloc]. *)
Definition act (capacity : Z) (a : action) (i : Z) (st : state) : progress state :=
  match a with
  | Nop => Continues st
  | Push_front =>
      if Z.of_nat (List.length (deque st)) <? capacity
      then Continues {| deque := to_int i :: deque st; mutex := mutex st;
                        atomic := atomic st; spin_mutex := spin_mutex st;
                        v1_mutex := v1_mutex st |}
      else Aborts
  | Pop_back =>
      match deque st with
      | [] => Unspecified
      | _ :: _ =>
          Continues {| deque := removelast (deque st); mutex := mutex st;
                       atomic := atomic st; spin_mutex := spin_mutex st;
                       v1_mutex := v1_mutex st |}
      end
  end.

(** [for (decltype(its) i = 0; i < its; ++i) { lock; code; unlock; }],
    with [count] rounds left and the counter at [i]. *)
Fixpoint loop (capacity : Z) (g : guard) (a : action) (count : nat) (i : Z) (st : state)
  : progress state :=
  match count with
  | O => Continues st
  | S count' =>
      match lock g st with
      | Continues st1 =>
          match act capacity a i st1 with
          | Continues st2 =>
              match unlock g st2 with
              | Continues st3 => loop capacity g a count' (to_u64 (i + 1)) st3
              | Waits => Waits
              | Aborts => Aborts
              | Unspecified => Unspecified
              end
          | Waits => Waits
          | Aborts => Aborts
          | Unspecified => Unspecified
          end
      | Waits => Waits
      | Aborts => Aborts
      | Unspecified => Unspecified
      end
  end.

(** One line of output. *)
Record line : Type := {
  name : string;
  its : Z;
  push_time : float;
  push_rate : float;
  pop_time : float;
  pop_rate : float
}.

(** What one [SEQ] has put on [std::cout]: the whole line, or the
    fields that precede the loop in which the thread stopped. *)
Inductive written : Type :=
| Whole (l : line)
| Until_push (name : string) (its : Z)
| Until_pop (name : string) (its : Z) (push_time push_rate : float).

(** The macro [SEQ(name, lock, unlock, push, pop, its)]: the name and
    the count are written, then the push loop runs and its time and
    rate are written, then the pop loop runs and its time and rate
    are written; each loop is timed by [BENCH], and [run] numbers the
    timed runs. *)
Definition SEQ (rt : runtime) (capacity : Z) (name : string) (g : guard)
    (push pop : action) (its : Z) (run : nat) (st : state) : written * progress state :=
  match loop capacity g push (Z.to_nat its) 0 st with
  | Continues st1 =>
      let t1 := elapsed rt run in
      let r1 := PrimFloat.div (double_of_u64 its) t1 in
      match loop capacity g pop (Z.to_nat its) 0 st1 with
      | Continues st2 =>
          let t2 := elapsed rt (S run) in
          (Whole {| name := name; its := its;
                    push_time := t1; push_rate := r1;
                    pop_time := t2;
                    pop_rate := PrimFloat.div (double_of_u64 its) t2 |},
           Continues st2)
      | stopped => (Until_pop name its t1 r1, stopped)
      end
  | stopped => (Until_push name its, stopped)
  end.

(** The benchmarks of [main] in their order. *)
Definition benchmarks : list (string * guard * action * action) :=
  [("nothing-nothing"%string, Unguarded, Nop, Nop);
   ("deque-nothing"%string, Unguarded, Push_front, Pop_back);
   ("deque-mutex"%string, By_mutex, Push_front, Pop_back);
   ("deque-atomic"%string, By_atomic, Push_front, Pop_back);
   ("deque-spin_mutex"%string, By_spin_mutex, Push_front, Pop_back);
   ("deque-v1_mutex"%string, By_v1_mutex, Push_front, Pop_back)].

(** The [SEQ]s of a list of benchmarks, one after the other: what
    is written and where the thread stands. *)
Fixpoint sequence (rt : runtime) (capacity : Z)
    (todo : list (string * guard * action * action))
    (its : Z) (run : nat) (st : state) : list written * progress state :=
  match todo with
  | [] => ([], Continues st)
  | (name, g, push, pop) :: rest =>
      match SEQ rt capacity name g push pop its run st with
      | (w, Continues st') =>
          let (out, r) := sequence rt capacity rest its (S (S run)) st' in
          (w :: out, r)
      | (w, stopped) => ([w], stopped)
      end
  end.

(** The objects [main] declares: [std::deque<int> deque(iterations)]
    holds [iterations] zeros, when the process can keep that many, and
    its constructor throws otherwise; no lock is held. *)
Definition initial (capacity iterations : Z) : progress state :=
  if iterations <=? capacity
  then Continues {| deque := repeat 0 (Z.to_nat iterations); mutex := false;
                    atomic := false; spin_mutex := false; v1_mutex := false |}
  else Aborts.

(** What the macro [DIE(str)] writes on [std::cerr] before
    [std::exit(EXIT_FAILURE)]. *)
Definition DIE (progname str : string) : string :=
  (progname ++ ": " ++ str)%string.

(** [PTRDIFF_MAX] where [unsigned long] has 64 bits, as [parse_args]
    takes it to have: [deque::max_size()] is a distance between two
    iterators and is never above it. *)
Definition PTRDIFF_MAX : Z := 2 ^ 63 - 1.

(** The number of elements the deque of a process can hold, where the
    memory of the process and the allocator leave room for
    [available] of them. *)
Definition limit (available : Z) : Z := Z.min available PTRDIFF_MAX.

(** [int main(int argc, char *argv[])]: what the program writes and
    the exit status, if the process ends by itself.  What the C++
    runtime writes when an exception ends the process is not among
    the events. *)
Definition main (rt : runtime) (available : Z) (progname : string) (args : list argument)
  : list (event written) * progress Z :=
  match parse_args progname args with
  | Returns iterations =>
      match initial (limit available) iterations with
      | Continues st =>
          match sequence rt (limit available) benchmarks iterations 0 st with
          | (out, Continues _) => (map Stdout out, Continues 0)
          | (out, Waits) => (map Stdout out, Waits)
          | (out, Aborts) => (map Stdout out, Aborts)
          | (out, Unspecified) => (map Stdout out, Unspecified)
          end
      | Waits => ([], Waits)
      | Aborts => ([], Aborts)
      | Unspecified => ([], Unspecified)
      end
  | Dies d => ([Stderr (DIE progname d)], Continues 1)
  | Undefined => ([], Unspecified)
  end.

End mutexes.

(** ** Reference notions

    What the specification compares the code with; none of these is
    part of the program. *)

(** The standard Fibonacci sequence, over the integers. *)
Fixpoint fibonacci (n : nat) : Z :=
  match n with
  | O => 0
  | S m =>
      match m with
      | O => 1
      | S k => fibonacci m + fibonacci k
      end
  end.

(** Two consecutive Fibonacci numbers, by iteration. *)
Fixpoint fibonacci_pair (n : nat) : Z * Z :=
  match n with
  | O => (0, 1)
  | S m => let (a, b) := fibonacci_pair m in (b, a + b)
  end.

(** The number of calls with an argument of at least 2 that a call of
    the workload with argument [n] makes, itself included. *)
Equations? invocations (n : Z) : Z by wf (Z.to_nat n) lt :=
  invocations n with Z_lt_dec n 2 := {
    | left _ := 0
    | right _ := 1 + invocations (n - 1) + invocations (n - 2) }.
Proof. all: lia. Qed.

(** The sum of the counters of a tracker. *)
Definition total (lb : load_balance) : Z := fold_right Z.add 0 (tbb lb).

(** The calls with an argument of at least 2 that a task has still to
    make. *)
Fixpoint pending (t : task) : Z :=
  match t with
  | Call n => invocations n
  | Invoke t1 t2 => pending t1 + pending t2
  | Done _ => 0
  end.

(** The value a task returns once it is done. *)
Fixpoint value_of (t : task) : Z :=
  match t with
  | Call n => parallel_fib n
  | Invoke t1 t2 => to_u64 (value_of t1 + value_of t2)
  | Done v => v
  end.

(** The steps a task has still to take: one for a call with an
    argument below 2; for another call one for its measurement, those
    of its two branches and one for the join. *)
Fixpoint steps_left (t : task) : Z :=
  match t with
  | Call n => 3 * invocations n + 1
  | Invoke t1 t2 => steps_left t1 + steps_left t2 + 1
  | Done _ => 0
  end.

(** The number of slots that recorded a use. *)
Definition distinct_slots (lb : load_balance) : Z :=
  Z.of_nat (List.length (remove_copy (tbb lb) 0)).

(** The mean and the deviation of a sample [v] taken over a count
    given apart, as the specification's open question describes them. *)
Definition mean_over (count : Z) (v : list Z) : float :=
  PrimFloat.div (double_of_int (accumulate_int v 0)) (double_of_u64 count).

Definition deviation_over (count : Z) (v : list Z) : float :=
  let m := mean_over count v in
  PrimFloat.sqrt
    (PrimFloat.div
       (accumulate_double
          (fun acc x => let delta := PrimFloat.sub (double_of_u64 x) m in
                        PrimFloat.add acc (PrimFloat.mul delta delta))
          v 0%float)
       (double_of_u64 count)).

(** A machine to run the drivers on: four slots, a quarter of a
    second per timed run, measurements falling on the slots in turn. *)
Definition four_slots : runtime :=
  {| max_concurrency := 4;
     elapsed := fun _ => 0.25%float;
     current_thread_index := fun _ k => Nat.modulo k 4 |}.


(** What a process wrote on each stream. *)
Definition stdout_of {L : Type} (out : list (event L)) : list L :=
  flat_map (fun e => match e with Stdout l => [l] | Stderr _ => [] end) out.

Definition stderr_of {L : Type} (out : list (event L)) : list string :=
  flat_map (fun e => match e with Stdout _ => [] | Stderr m => [m] end) out.

(** A machine that keeps the arena's word: every measurement falls on
    one of its slots. *)
Definition slots_respected (rt : runtime) : Prop :=
  forall run j, Z.of_nat (current_thread_index rt run j) < max_concurrency rt.

(** The fields of a line of recursive-fib that the record decides. *)
Definition decided (l : recursive_fib.line) : Z * Z * Z * float :=
  (recursive_fib.fib_num l, recursive_fib.fib_number l,
   recursive_fib.nthread l, recursive_fib.jobs l).

Definition decided_by (r : Z * Z) : Z * Z * Z * float :=
  (fst r, parallel_fib (fst r), snd r, double_of_u64 (threads_created (fst r))).

(** The diagnostic noploop gives a record, if any. *)
Definition noploop_diagnostic (r : Z * Z * Z) : option string :=
  let '(method, threads, _) := r in
  if threads <? 2 then Some "Threads must be < 2"%string
  else if (0 <=? method) && (method <=? 3) then None
  else Some "Method must be in {0, 1, 2, 3}"%string.



(** The two arguments of the recursive calls at [k + 2]. *)
Ltac predecessors k :=
  replace (Z.of_nat (S (S k)) - 1) with (Z.of_nat (S k)) by lia;
  replace (Z.of_nat (S (S k)) - 2) with (Z.of_nat k) by lia.

(** * Properties *)

(** ** Machine integers *)

Lemma to_u64_range z : 0 <= to_u64 z < 2 ^ 64.
Proof. unfold to_u64. apply Z.mod_pos_bound. lia. Qed.

Lemma to_u64_small z : 0 <= z < 2 ^ 64 -> to_u64 z = z.
Proof. intros H. unfold to_u64. apply Z.mod_small. exact H. Qed.

Lemma to_u64_idem z : to_u64 (to_u64 z) = to_u64 z.
Proof. unfold to_u64. apply Z.mod_mod. lia. Qed.

Lemma to_u64_add_l a b : to_u64 (to_u64 a + b) = to_u64 (a + b).
Proof. unfold to_u64. apply Z.add_mod_idemp_l. lia. Qed.

Lemma to_u64_add_r a b : to_u64 (a + to_u64 b) = to_u64 (a + b).
Proof. unfold to_u64. apply Z.add_mod_idemp_r. lia. Qed.

Lemma to_u64_mul_r a b : to_u64 (a * to_u64 b) = to_u64 (a * b).
Proof. unfold to_u64. apply Z.mul_mod_idemp_r. lia. Qed.

Lemma to_u64_congr a b c : to_u64 a = to_u64 b -> to_u64 (a + c) = to_u64 (b + c).
Proof.
  intros H. rewrite <- (to_u64_add_l a), <- (to_u64_add_l b), H. reflexivity.
Qed.

(** ** The Fibonacci sequence *)

Lemma fibonacci_step k : fibonacci (S (S k)) = fibonacci (S k) + fibonacci k.
Proof. reflexivity. Qed.

Lemma fibonacci_pair_spec k : fibonacci_pair k = (fibonacci k, fibonacci (S k)).
Proof.
  induction k as [|k IH].
  - reflexivity.
  - cbn [fibonacci_pair]. rewrite IH, fibonacci_step. f_equal. lia.
Qed.

Lemma fibonacci_fst_pair k : fibonacci k = fst (fibonacci_pair k).
Proof. rewrite fibonacci_pair_spec. reflexivity. Qed.

Lemma fibonacci_nonneg k : 0 <= fibonacci k /\ 0 <= fibonacci (S k).
Proof.
  induction k as [|k [IH1 IH2]].
  - cbn. lia.
  - split; [exact IH2|]. rewrite fibonacci_step. lia.
Qed.

Lemma fibonacci_mono_step k : fibonacci k <= fibonacci (S k).
Proof.
  destruct k as [|k].
  - cbn. lia.
  - rewrite fibonacci_step. pose proof (fibonacci_nonneg k). lia.
Qed.

Lemma fibonacci_mono j k : (j <= k)%nat -> fibonacci j <= fibonacci k.
Proof.
  induction 1 as [|k _ IH].
  - lia.
  - pose proof (fibonacci_mono_step k). lia.
Qed.

(** Induction two steps at a time. *)
Lemma pair_induction (P : nat -> Prop) :
  P O -> P 1%nat -> (forall k, P k -> P (S k) -> P (S (S k))) -> forall k, P k.
Proof.
  intros H0 H1 HS k.
  assert (H : P k /\ P (S k)).
  { induction k as [|k [IHa IHb]]; [split; assumption|].
    split; [exact IHb|apply HS; assumption]. }
  exact (proj1 H).
Qed.

(** ** The workload and the job count *)

(** The defining equations, with the test of the source. *)
Lemma parallel_fib_eq n :
  parallel_fib n =
  if n <? 2 then to_u64 n else to_u64 (parallel_fib (n - 1) + parallel_fib (n - 2)).
Proof.
  rewrite parallel_fib_equation_1.
  destruct (Z_lt_dec n 2) as [H|H], (Z.ltb_spec n 2); try lia; reflexivity.
Qed.

Lemma threads_created_eq n :
  threads_created n =
  if n <? 2 then 0
  else to_u64 (to_u64 (2 + threads_created (n - 1)) + threads_created (n - 2)).
Proof.
  rewrite threads_created_equation_1.
  destruct (Z_lt_dec n 2) as [H|H], (Z.ltb_spec n 2); try lia; reflexivity.
Qed.

Lemma invocations_eq n :
  invocations n =
  if n <? 2 then 0 else 1 + invocations (n - 1) + invocations (n - 2).
Proof.
  rewrite invocations_equation_1.
  destruct (Z_lt_dec n 2) as [H|H], (Z.ltb_spec n 2); try lia; reflexivity.
Qed.

Lemma parallel_fib_range n : 0 <= parallel_fib n < 2 ^ 64.
Proof.
  rewrite parallel_fib_eq. destruct (n <? 2); apply to_u64_range.
Qed.

Lemma threads_created_range n : 0 <= threads_created n < 2 ^ 64.
Proof.
  rewrite threads_created_eq. destruct (n <? 2); [lia|apply to_u64_range].
Qed.

(** The workload computes the Fibonacci sequence in 64-bit
    arithmetic. *)
Lemma parallel_fib_of_nat k : parallel_fib (Z.of_nat k) = to_u64 (fibonacci k).
Proof.
  induction k as [| |k IH0 IH1] using pair_induction.
  - reflexivity.
  - reflexivity.
  - rewrite parallel_fib_eq.
    destruct (Z.ltb_spec (Z.of_nat (S (S k))) 2) as [H|_]; [lia|].
    predecessors k.
    rewrite IH0, IH1, fibonacci_step, to_u64_add_l, to_u64_add_r. reflexivity.
Qed.

(** The calls with an argument of at least 2 are one less than the
    next Fibonacci number. *)
Lemma invocations_of_nat k : invocations (Z.of_nat k) = fibonacci (S k) - 1.
Proof.
  induction k as [| |k IH0 IH1] using pair_induction.
  - reflexivity.
  - reflexivity.
  - rewrite invocations_eq.
    destruct (Z.ltb_spec (Z.of_nat (S (S k))) 2) as [H|_]; [lia|].
    predecessors k.
    rewrite IH0, IH1, (fibonacci_step (S k)). lia.
Qed.

Lemma invocations_negative n : n < 2 -> invocations n = 0.
Proof.
  intros H. rewrite invocations_eq.
  destruct (Z.ltb_spec n 2); [reflexivity|lia].
Qed.

Lemma invocations_nonneg n : 0 <= invocations n.
Proof.
  destruct (Z_lt_dec n 2) as [H|H].
  - rewrite invocations_negative by exact H. lia.
  - rewrite <- (Z2Nat.id n) by lia. rewrite invocations_of_nat.
    pose proof (fibonacci_mono 1 (S (Z.to_nat n)) ltac:(lia)) as M.
    change (fibonacci 1) with 1 in M. lia.
Qed.

(** The job count is twice the number of those calls, in 64-bit
    arithmetic. *)
Lemma threads_created_invocations n : threads_created n = to_u64 (2 * invocations n).
Proof.
  destruct (Z_lt_dec n 2) as [H|H].
  - rewrite threads_created_eq, invocations_negative by exact H.
    destruct (Z.ltb_spec n 2); [reflexivity|lia].
  - rewrite <- (Z2Nat.id n) by lia. generalize (Z.to_nat n) as k. clear n H.
    induction k as [| |k IH0 IH1] using pair_induction.
    + reflexivity.
    + reflexivity.
    + rewrite threads_created_eq, (invocations_eq (Z.of_nat (S (S k)))).
      destruct (Z.ltb_spec (Z.of_nat (S (S k))) 2) as [H|_]; [lia|].
      predecessors k.
      rewrite IH0, IH1.
      rewrite (to_u64_add_r 2), to_u64_add_l, to_u64_add_r.
      f_equal. lia.
Qed.

Lemma threads_created_of_nat k :
  threads_created (Z.of_nat k) = to_u64 (2 * (fibonacci (S k) - 1)).
Proof. rewrite threads_created_invocations, invocations_of_nat. reflexivity. Qed.

(** Bounds below which nothing wraps. *)
Lemma fibonacci_93 : fibonacci 93 = 12200160415121876738.
Proof. rewrite fibonacci_fst_pair. vm_compute. reflexivity. Qed.

Lemma fibonacci_94 : fibonacci 94 = 19740274219868223167.
Proof. rewrite fibonacci_fst_pair. vm_compute. reflexivity. Qed.

Lemma fibonacci_92 : fibonacci 92 = 7540113804746346429.
Proof. rewrite fibonacci_fst_pair. vm_compute. reflexivity. Qed.

Lemma parallel_fib_exact n :
  0 <= n <= 93 -> parallel_fib n = fibonacci (Z.to_nat n).
Proof.
  intros H. rewrite <- (Z2Nat.id n) at 1 by lia. rewrite parallel_fib_of_nat.
  apply to_u64_small.
  pose proof (fibonacci_nonneg (Z.to_nat n)) as [N _].
  pose proof (fibonacci_mono (Z.to_nat n) 93 ltac:(lia)) as M.
  rewrite fibonacci_93 in M. lia.
Qed.

Lemma invocations_exact n : n <= 91 -> 0 <= 2 * invocations n < 2 ^ 64.
Proof.
  intros H. pose proof (invocations_nonneg n) as N.
  destruct (Z_lt_dec n 2) as [L|L].
  - rewrite invocations_negative by exact L. lia.
  - rewrite <- (Z2Nat.id n) by lia. rewrite invocations_of_nat.
    rewrite <- (Z2Nat.id n) in N by lia. rewrite invocations_of_nat in N.
    pose proof (fibonacci_mono (S (Z.to_nat n)) 92 ltac:(lia)) as M.
    rewrite fibonacci_92 in M. lia.
Qed.

Lemma threads_created_exact n : n <= 91 -> threads_created n = 2 * invocations n.
Proof.
  intros H. rewrite threads_created_invocations.
  apply to_u64_small, invocations_exact, H.
Qed.

(** The values at large arguments, through the iteration. *)
Lemma threads_created_value n v :
  (0 <=? n) = true ->
  to_u64 (2 * (fst (fibonacci_pair (S (Z.to_nat n))) - 1)) = v ->
  threads_created n = v.
Proof.
  intros Hn H. apply Z.leb_le in Hn.
  rewrite <- (Z2Nat.id n) by exact Hn.
  rewrite threads_created_of_nat, fibonacci_fst_pair. exact H.
Qed.

Lemma parallel_fib_value n v :
  (0 <=? n) = true ->
  to_u64 (fst (fibonacci_pair (Z.to_nat n))) = v -> parallel_fib n = v.
Proof.
  intros Hn H. apply Z.leb_le in Hn.
  rewrite <- (Z2Nat.id n) by exact Hn.
  rewrite parallel_fib_of_nat, fibonacci_fst_pair. exact H.
Qed.

Lemma to_u64_even x : Z.even (to_u64 (2 * x)) = true.
Proof.
  unfold to_u64. change (2 ^ 64) with (2 * 2 ^ 63).
  rewrite Z.mul_mod_distr_l by lia.
  rewrite Z.even_mul. reflexivity.
Qed.

(** C2, as amended.  The job count is 0 below 2 and otherwise
    2 + calls(n-1) + calls(n-2) formed in 64-bit unsigned arithmetic;
    the sum is the exact one for every n up to 91; calls(0) =
    calls(1) = 0, calls(2) = 2 and calls(5) = 14. *)
Theorem threads_created_recurrence (n : Z) :
  threads_created n =
    (if n <? 2 then 0
     else to_u64 (2 + threads_created (n - 1) + threads_created (n - 2)))
  /\ (2 <= n <= 91 ->
      threads_created n = 2 + threads_created (n - 1) + threads_created (n - 2))
  /\ threads_created 0 = 0 /\ threads_created 1 = 0
  /\ threads_created 2 = 2 /\ threads_created 5 = 14.
Proof.
  split; [|split].
  - rewrite threads_created_eq at 1.
    destruct (n <? 2); [reflexivity|]. rewrite to_u64_add_l. reflexivity.
  - intros H.
    rewrite !threads_created_exact by lia.
    rewrite (invocations_eq n).
    destruct (Z.ltb_spec n 2); lia.
  - repeat split; reflexivity.
Qed.

(** The recurrence at n = 5: 14 = 2 + 8 + 4. *)
Lemma threads_created_recurrence_witness :
  threads_created 5 = 2 + threads_created (5 - 1) + threads_created (5 - 2).
Proof.
  apply (proj1 (proj2 (threads_created_recurrence 5))). lia.
Defined.

(** C2, the claim as stated fails at n = 92: the exact sum of the
    two earlier counts and 2 no longer fits 64 bits. *)
Lemma threads_created_92_wraps :
  threads_created 92 = 5953576756534201858
  /\ 2 + threads_created 91 + threads_created 90 = 24400320830243753474
  /\ threads_created 92 <> 2 + threads_created 91 + threads_created 90.
Proof.
  assert (A : threads_created 92 = 5953576756534201858)
    by (apply threads_created_value; vm_compute; reflexivity).
  assert (B : 2 + threads_created 91 + threads_created 90 = 24400320830243753474).
  { rewrite (threads_created_value 91 15080227609492692856) by (vm_compute; reflexivity).
    rewrite (threads_created_value 90 9320093220751060616) by (vm_compute; reflexivity).
    reflexivity. }
  split; [exact A|split; [exact B|]].
  rewrite A, B. discriminate.
Qed.

(** C3, as amended.  For n >= 0 the workload returns n below 2 and
    otherwise the 64-bit sum of its values at n-1 and n-2; it is the
    standard Fibonacci sequence reduced modulo 2^64, hence the
    sequence itself for every n up to 93; fib(0) = 0, fib(1) = 1 and
    fib(10) = 55. *)
Theorem parallel_fib_fibonacci (n : Z) (Hn : 0 <= n) :
  parallel_fib n =
    (if n <? 2 then n
     else to_u64 (parallel_fib (n - 1) + parallel_fib (n - 2)))
  /\ parallel_fib n = to_u64 (fibonacci (Z.to_nat n))
  /\ (n <= 93 -> parallel_fib n = fibonacci (Z.to_nat n))
  /\ parallel_fib 0 = 0 /\ parallel_fib 1 = 1 /\ parallel_fib 10 = 55.
Proof.
  split; [|split; [|split]].
  - rewrite parallel_fib_eq at 1.
    destruct (Z.ltb_spec n 2); [|reflexivity].
    apply to_u64_small. lia.
  - rewrite <- (Z2Nat.id n) at 1 by exact Hn. apply parallel_fib_of_nat.
  - intros H. apply parallel_fib_exact. lia.
  - repeat split; reflexivity.
Qed.

Lemma parallel_fib_fibonacci_witness :
  parallel_fib 10 =
    (if 10 <? 2 then 10 else to_u64 (parallel_fib (10 - 1) + parallel_fib (10 - 2)))
  /\ parallel_fib 10 = to_u64 (fibonacci (Z.to_nat 10))
  /\ (10 <= 93 -> parallel_fib 10 = fibonacci (Z.to_nat 10))
  /\ parallel_fib 0 = 0 /\ parallel_fib 1 = 1 /\ parallel_fib 10 = 55.
Proof. apply (parallel_fib_fibonacci 10). lia. Defined.

(** C3, the claim as stated fails at n = 94: the 94th Fibonacci
    number does not fit 64 bits. *)
Lemma parallel_fib_94_wraps :
  parallel_fib 94 = 1293530146158671551
  /\ fibonacci 94 = 19740274219868223167
  /\ parallel_fib 94 <> fibonacci (Z.to_nat 94).
Proof.
  assert (A : parallel_fib 94 = 1293530146158671551)
    by (apply parallel_fib_value; vm_compute; reflexivity).
  split; [exact A|split; [exact fibonacci_94|]].
  change (Z.to_nat 94) with 94%nat. rewrite A, fibonacci_94. discriminate.
Qed.

(** C10, as amended.  For n >= 0 the job count is 2 * (fib(n+1) - 1)
    formed in 64-bit unsigned arithmetic from the workload's value at
    n+1, the exact product for every n up to 91, and it is always
    even. *)
Theorem threads_created_closed_form (n : Z) (Hn : 0 <= n) :
  threads_created n = to_u64 (2 * (parallel_fib (n + 1) - 1))
  /\ (n <= 91 -> threads_created n = 2 * (parallel_fib (n + 1) - 1))
  /\ Z.even (threads_created n) = true.
Proof.
  assert (E : threads_created n = to_u64 (2 * (parallel_fib (n + 1) - 1))).
  { rewrite <- (Z2Nat.id n) by exact Hn.
    rewrite threads_created_of_nat.
    replace (Z.of_nat (Z.to_nat n) + 1) with (Z.of_nat (S (Z.to_nat n))) by lia.
    rewrite parallel_fib_of_nat.
    generalize (fibonacci (S (Z.to_nat n))) as f. intros f.
    unfold to_u64. rewrite (Z.mod_eq f (2 ^ 64)) by lia.
    replace (2 * (f - 2 ^ 64 * (f / 2 ^ 64) - 1))
      with (2 * (f - 1) + - (2 * (f / 2 ^ 64)) * 2 ^ 64) by ring.
    rewrite Z.mod_add by lia. reflexivity. }
  split; [exact E|split].
  - intros H. rewrite threads_created_exact by exact H.
    rewrite parallel_fib_exact by lia.
    rewrite <- (Z2Nat.id n) at 1 by exact Hn. rewrite invocations_of_nat.
    replace (Z.to_nat (n + 1)) with (S (Z.to_nat n)) by lia. reflexivity.
  - rewrite threads_created_invocations. apply to_u64_even.
Qed.

Lemma threads_created_closed_form_witness :
  threads_created 5 = to_u64 (2 * (parallel_fib (5 + 1) - 1))
  /\ (5 <= 91 -> threads_created 5 = 2 * (parallel_fib (5 + 1) - 1))
  /\ Z.even (threads_created 5) = true.
Proof. apply (threads_created_closed_form 5). lia. Defined.

(** C10, the claim as stated fails at n = 92: twice fib(93) - 1 does
    not fit 64 bits. *)
Lemma threads_created_closed_form_92 :
  threads_created 92 = 5953576756534201858
  /\ 2 * (parallel_fib (92 + 1) - 1) = 24400320830243753474
  /\ threads_created 92 <> 2 * (parallel_fib (92 + 1) - 1).
Proof.
  assert (A : threads_created 92 = 5953576756534201858)
    by (apply threads_created_value; vm_compute; reflexivity).
  assert (B : 2 * (parallel_fib (92 + 1) - 1) = 24400320830243753474).
  { change (92 + 1) with 93.
    rewrite (parallel_fib_value 93 12200160415121876738) by (vm_compute; reflexivity).
    reflexivity. }
  split; [exact A|split; [exact B|]].
  rewrite A, B. discriminate.
Qed.

(** ** The tracker *)

Lemma assign_length v i x : List.length (assign v i x) = List.length v.
Proof.
  revert i. induction v as [|h t IH]; intros [|i]; cbn; try reflexivity.
  rewrite IH. reflexivity.
Qed.

Lemma assign_sum v i x c :
  nth_error v i = Some c ->
  fold_right Z.add 0 (assign v i x) = fold_right Z.add 0 v - c + x.
Proof.
  revert i. induction v as [|h t IH]; intros [|i] H; cbn in *; try discriminate.
  - injection H as ->. lia.
  - rewrite (IH i H). lia.
Qed.

Lemma assign_nonneg v i x :
  0 <= x -> Forall (fun c => 0 <= c) v -> Forall (fun c => 0 <= c) (assign v i x).
Proof.
  intros Hx. revert i. induction v as [|h t IH]; intros [|i] H; cbn.
  - constructor.
  - constructor.
  - inversion H; subst. constructor; assumption.
  - inversion H; subst. constructor; [assumption|apply IH; assumption].
Qed.

Lemma nth_error_le_sum v i c :
  Forall (fun c => 0 <= c) v -> nth_error v i = Some c ->
  0 <= c <= fold_right Z.add 0 v.
Proof.
  revert i. induction v as [|h t IH]; intros [|i] F H; cbn in *; try discriminate.
  - injection H as ->. inversion F; subst.
    assert (0 <= fold_right Z.add 0 t).
    { clear - H2. induction H2; cbn; lia. }
    lia.
  - inversion F; subst. specialize (IH i H3 H). lia.
Qed.

Lemma repeat_zero_sum k : fold_right Z.add 0 (repeat 0 k) = 0.
Proof. induction k as [|k IH]; cbn; [reflexivity|exact IH]. Qed.

Lemma repeat_zero_nonneg k : Forall (fun c => 0 <= c) (repeat 0 k).
Proof. induction k as [|k IH]; cbn; constructor; [lia|exact IH]. Qed.

Lemma total_new a slots : total (load_balance_new a slots) = 0.
Proof. apply repeat_zero_sum. Qed.

(** One measurement: one counter goes up by one, in 64 bits. *)
Lemma take_measurement_total index lb lb' :
  take_measurement index lb = Some lb' ->
  exists c, nth_error (tbb lb) index = Some c
            /\ total lb' = total lb - c + to_u64 (c + 1)
            /\ List.length (tbb lb') = List.length (tbb lb)
            /\ allowed lb' = allowed lb.
Proof.
  unfold take_measurement, total.
  destruct (nth_error (tbb lb) index) as [c|] eqn:E; [|discriminate].
  intros H. injection H as <-. cbn. exists c.
  rewrite (assign_sum _ _ _ _ E), assign_length. auto.
Qed.

Lemma take_measurement_in_range index lb :
  (index < List.length (tbb lb))%nat -> exists lb', take_measurement index lb = Some lb'.
Proof.
  intros H. unfold take_measurement.
  destruct (nth_error (tbb lb) index) as [c|] eqn:E.
  - eexists. reflexivity.
  - apply nth_error_None in E. lia.
Qed.

(** ** Every interleaving of the instrumented workload *)

Lemma lb_steps_trans c1 c2 c3 : lb_steps c1 c2 -> lb_steps c2 c3 -> lb_steps c1 c3.
Proof.
  induction 1 as [|a b c S1 _ IH]; intros H.
  - exact H.
  - eapply steps_cons; [exact S1|apply IH, H].
Qed.

Lemma lb_steps_first lb lb' t t' u :
  lb_steps (lb, t) (lb', t') -> lb_steps (lb, Invoke t u) (lb', Invoke t' u).
Proof.
  intros H. remember (lb, t) as c1 eqn:E1. remember (lb', t') as c2 eqn:E2.
  revert lb t E1. induction H as [c|a [lbm tm] c S1 _ IH]; intros lb t E1; subst.
  - injection E1 as -> ->. apply steps_refl.
  - eapply steps_cons; [apply step_first, S1|]. apply IH; reflexivity.
Qed.

Lemma lb_steps_second lb lb' t u u' :
  lb_steps (lb, u) (lb', u') -> lb_steps (lb, Invoke t u) (lb', Invoke t u').
Proof.
  intros H. remember (lb, u) as c1 eqn:E1. remember (lb', u') as c2 eqn:E2.
  revert lb u E1. induction H as [c|a [lbm tm] c S1 _ IH]; intros lb u E1; subst.
  - injection E1 as -> ->. apply steps_refl.
  - eapply steps_cons; [apply step_second, S1|]. apply IH; reflexivity.
Qed.

(** A step never changes the value the task will return. *)
Lemma lb_step_value c1 c2 : lb_step c1 c2 -> value_of (snd c2) = value_of (snd c1).
Proof.
  induction 1 as [lb n H|lb lb' n index H _|lb lb' t t' u _ IH|lb lb' t u u' _ IH|lb x y];
    cbn in *.
  - rewrite parallel_fib_eq. destruct (Z.ltb_spec n 2); [reflexivity|lia].
  - rewrite (parallel_fib_eq n). destruct (Z.ltb_spec n 2); [lia|reflexivity].
  - rewrite IH. reflexivity.
  - rewrite IH. reflexivity.
  - reflexivity.
Qed.

Lemma lb_steps_value c1 c2 : lb_steps c1 c2 -> value_of (snd c2) = value_of (snd c1).
Proof.
  induction 1 as [|a b c S1 _ IH]; [reflexivity|].
  rewrite IH. apply lb_step_value, S1.
Qed.

Lemma pending_nonneg t : 0 <= pending t.
Proof.
  induction t as [n|t1 IH1 t2 IH2|v]; cbn; [apply invocations_nonneg|lia|lia].
Qed.

(** A step keeps the counters and the calls still to make in balance,
    modulo 2^64. *)
Lemma lb_step_balance c1 c2 :
  lb_step c1 c2 ->
  to_u64 (total (fst c2) + pending (snd c2)) = to_u64 (total (fst c1) + pending (snd c1)).
Proof.
  induction 1 as [lb n H|lb lb' n index H M|lb lb' t t' u _ IH|lb lb' t u u' _ IH|lb x y];
    cbn in *.
  - rewrite invocations_negative by exact H. reflexivity.
  - destruct (take_measurement_total _ _ _ M) as (c & _ & T & _).
    rewrite T, (invocations_eq n). destruct (Z.ltb_spec n 2); [lia|].
    replace (total lb - c + to_u64 (c + 1) + (invocations (n - 1) + invocations (n - 2)))
      with (total lb - c + (invocations (n - 1) + invocations (n - 2)) + to_u64 (c + 1)) by lia.
    rewrite to_u64_add_r. f_equal. lia.
  - rewrite !Z.add_assoc. apply to_u64_congr, IH.
  - replace (total lb' + (pending t + pending u')) with (total lb' + pending u' + pending t) by lia.
    replace (total lb + (pending t + pending u)) with (total lb + pending u + pending t) by lia.
    apply to_u64_congr, IH.
  - reflexivity.
Qed.

Lemma lb_steps_balance c1 c2 :
  lb_steps c1 c2 ->
  to_u64 (total (fst c2) + pending (snd c2)) = to_u64 (total (fst c1) + pending (snd c1)).
Proof.
  induction 1 as [|a b c S1 _ IH]; [reflexivity|].
  rewrite IH. apply lb_step_balance, S1.
Qed.

(** While the counters and the calls still to make stay below 2^64,
    no counter wraps and the balance is exact. *)
Lemma lb_step_exact c1 c2 :
  lb_step c1 c2 ->
  Forall (fun c => 0 <= c) (tbb (fst c1)) ->
  total (fst c1) + pending (snd c1) < 2 ^ 64 ->
  Forall (fun c => 0 <= c) (tbb (fst c2))
  /\ total (fst c2) + pending (snd c2) = total (fst c1) + pending (snd c1).
Proof.
  induction 1 as [lb n H|lb lb' n index H M|lb lb' t t' u _ IH|lb lb' t u u' _ IH|lb x y];
    cbn in *; intros F B.
  - rewrite invocations_negative by exact H. auto.
  - pose proof M as M'. unfold take_measurement in M'.
    destruct (take_measurement_total _ _ _ M) as (c & E & T & _).
    rewrite E in M'. injection M' as <-. cbn [tbb].
    pose proof (nth_error_le_sum _ _ _ F E) as R. fold (total lb) in R.
    pose proof (invocations_nonneg (n - 1)). pose proof (invocations_nonneg (n - 2)).
    rewrite (invocations_eq n) in B |- *. destruct (Z.ltb_spec n 2); [lia|].
    assert (S : to_u64 (c + 1) = c + 1) by (apply to_u64_small; lia).
    split.
    + apply assign_nonneg; [rewrite S; lia|exact F].
    + rewrite T, S. lia.
  - pose proof (pending_nonneg u). destruct (IH F ltac:(lia)) as [F' E]. split; [exact F'|lia].
  - pose proof (pending_nonneg t). destruct (IH F ltac:(lia)) as [F' E]. split; [exact F'|lia].
  - auto.
Qed.

Lemma lb_steps_exact c1 c2 :
  lb_steps c1 c2 ->
  Forall (fun c => 0 <= c) (tbb (fst c1)) ->
  total (fst c1) + pending (snd c1) < 2 ^ 64 ->
  total (fst c2) + pending (snd c2) = total (fst c1) + pending (snd c1).
Proof.
  induction 1 as [|a b c S1 _ IH]; intros F B; [reflexivity|].
  destruct (lb_step_exact _ _ S1 F B) as [F' E].
  rewrite IH by (try exact F'; lia). exact E.
Qed.

(** ** One schedule of the instrumented workload *)

(** The body of the source, branch by branch. *)
Lemma parallel_fib_lb_eq index_of n k lb :
  parallel_fib_lb index_of n k lb =
  if n <? 2 then Returns (to_u64 n, k, lb)
  else
    match take_measurement (index_of k) lb with
    | None => Undefined
    | Some lb1 =>
        match parallel_fib_lb index_of (n - 1) (S k) lb1 with
        | Returns (x, k2, lb2) =>
            match parallel_fib_lb index_of (n - 2) k2 lb2 with
            | Returns (y, k3, lb3) => Returns (to_u64 (x + y), k3, lb3)
            | Dies d => Dies d
            | Undefined => Undefined
            end
        | Dies d => Dies d
        | Undefined => Undefined
        end
    end.
Proof.
  rewrite parallel_fib_lb_equation_1.
  destruct (Z_lt_dec n 2) as [H|H], (Z.ltb_spec n 2); try lia; cbn.
  - reflexivity.
  - destruct (take_measurement (index_of k) lb) as [lb1|]; cbn; [|reflexivity].
    destruct (parallel_fib_lb index_of (n - 1) (S k) lb1) as [[[x k2] lb2]|d|]; cbn;
      try reflexivity.
    destruct (parallel_fib_lb index_of (n - 2) k2 lb2) as [[[y k3] lb3]|d|]; cbn;
      reflexivity.
Qed.

(** Induction on the argument of the workload. *)
Lemma argument_induction (P : Z -> Prop) :
  (forall n, n < 2 -> P n) ->
  (forall n, 2 <= n -> P (n - 1) -> P (n - 2) -> P n) ->
  forall n, P n.
Proof.
  intros Hleaf Hnode n.
  assert (H : forall m n, (Z.to_nat n < m)%nat -> P n).
  { induction m as [|m IH]; intros x Hx; [lia|].
    destruct (Z_lt_dec x 2) as [L|L].
    - apply Hleaf, L.
    - apply Hnode; [lia| |]; apply IH; lia. }
  apply (H (S (Z.to_nat n))). lia.
Qed.

(** The schedule is one of the interleavings. *)
Lemma parallel_fib_lb_completed index_of n :
  forall k lb v k' lb',
    parallel_fib_lb index_of n k lb = Returns (v, k', lb') ->
    completed_run n lb v lb'.
Proof.
  unfold completed_run.
  induction n as [n L|n L IH1 IH2] using argument_induction; intros k lb v k' lb' H;
    rewrite parallel_fib_lb_eq in H; destruct (Z.ltb_spec n 2) as [L'|L']; try lia.
  - injection H as <- _ <-.
    eapply steps_cons; [apply step_leaf, L|apply steps_refl].
  - destruct (take_measurement (index_of k) lb) as [lb1|] eqn:M; [|discriminate].
    destruct (parallel_fib_lb index_of (n - 1) (S k) lb1) as [[[x k2] lb2]|d|] eqn:R1;
      try discriminate.
    destruct (parallel_fib_lb index_of (n - 2) k2 lb2) as [[[y k3] lb3]|d|] eqn:R2;
      try discriminate.
    injection H as <- _ <-.
    eapply steps_cons; [eapply step_measure; [exact L|exact M]|].
    eapply lb_steps_trans; [apply lb_steps_first, (IH1 _ _ _ _ _ R1)|].
    eapply lb_steps_trans; [apply lb_steps_second, (IH2 _ _ _ _ _ R2)|].
    eapply steps_cons; [apply step_join|apply steps_refl].
Qed.

(** With every measurement on a slot of the tracker, the schedule
    returns. *)
Lemma parallel_fib_lb_returns index_of n :
  forall k lb,
    (forall j, (index_of j < List.length (tbb lb))%nat) ->
    exists v k' lb',
      parallel_fib_lb index_of n k lb = Returns (v, k', lb')
      /\ List.length (tbb lb') = List.length (tbb lb).
Proof.
  induction n as [n L|n L IH1 IH2] using argument_induction; intros k lb V;
    rewrite parallel_fib_lb_eq; destruct (Z.ltb_spec n 2) as [L'|L']; try lia.
  - eauto.
  - destruct (take_measurement_in_range (index_of k) lb (V k)) as [lb1 M].
    rewrite M.
    destruct (take_measurement_total _ _ _ M) as (c & _ & _ & Len & _).
    destruct (IH1 (S k) lb1) as (x & k2 & lb2 & R1 & Len1).
    { intros j. rewrite Len. apply V. }
    rewrite R1.
    destruct (IH2 k2 lb2) as (y & k3 & lb3 & R2 & Len2).
    { intros j. rewrite Len1, Len. apply V. }
    rewrite R2. exists (to_u64 (x + y)), k3, lb3. split; [reflexivity|congruence].
Qed.

(** A tracker with a slot always has a completed run. *)
Lemma completed_run_exists n lb :
  tbb lb <> [] -> exists v lb', completed_run n lb v lb'.
Proof.
  intros H.
  destruct (parallel_fib_lb_returns (fun _ => O) n O lb) as (v & k' & lb' & R & _).
  { intros _. destruct (tbb lb); [contradiction|cbn; lia]. }
  exists v, lb'. exact (parallel_fib_lb_completed _ _ _ _ _ _ _ R).
Qed.

Lemma completed_run_value n lb v lb' : completed_run n lb v lb' -> v = parallel_fib n.
Proof. intros H. exact (lb_steps_value _ _ H). Qed.

Lemma completed_run_balance n lb v lb' :
  completed_run n lb v lb' -> to_u64 (total lb') = to_u64 (total lb + invocations n).
Proof.
  intros H. pose proof (lb_steps_balance _ _ H) as B. cbn [fst snd pending] in B.
  rewrite Z.add_0_r in B. exact B.
Qed.

(** ** The claims on the instrumented workload *)

(** C1, as amended.  On a freshly zero-initialised tracker every
    completed run of parallel_fib_lb(n, lb) records one increment per
    invocation with an argument of at least 2, and calls(n) counts two
    per such invocation: the counters sum to the number of those
    invocations modulo 2^64, twice their sum is calls(n) modulo 2^64,
    and for n up to 91 the sum is exactly calls(n) / 2.  A tracker
    with a slot has such a run. *)
Theorem counters_sum_to_half_the_jobs (n a slots : Z) :
  (forall v lb',
     completed_run n (load_balance_new a slots) v lb' ->
     to_u64 (total lb') = to_u64 (invocations n)
     /\ to_u64 (2 * total lb') = threads_created n
     /\ (n <= 91 -> total lb' = invocations n /\ 2 * total lb' = threads_created n))
  /\ (0 < slots -> exists v lb', completed_run n (load_balance_new a slots) v lb').
Proof.
  split.
  - intros v lb' H.
    pose proof (completed_run_balance _ _ _ _ H) as B.
    rewrite total_new, Z.add_0_l in B.
    split; [exact B|split].
    + rewrite threads_created_invocations.
      rewrite <- (to_u64_mul_r 2 (total lb')), B, to_u64_mul_r. reflexivity.
    + intros L. pose proof (invocations_exact n L) as R.
      pose proof (lb_steps_exact _ _ H) as X. cbn [fst snd pending] in X.
      rewrite total_new in X.
      specialize (X (repeat_zero_nonneg _) ltac:(lia)).
      rewrite threads_created_exact by exact L. lia.
  - intros S. apply completed_run_exists. cbn [tbb load_balance_new].
    destruct (Z.to_nat slots) eqn:E; [lia|discriminate].
Qed.

Lemma counters_sum_to_half_the_jobs_witness :
  to_u64 (total {| allowed := 2; tbb := [1; 1] |}) = to_u64 (invocations 3)
  /\ to_u64 (2 * total {| allowed := 2; tbb := [1; 1] |}) = threads_created 3
  /\ (3 <= 91 ->
      total {| allowed := 2; tbb := [1; 1] |} = invocations 3
      /\ 2 * total {| allowed := 2; tbb := [1; 1] |} = threads_created 3).
Proof.
  apply (proj1 (counters_sum_to_half_the_jobs 3 2 2) 2).
  apply (parallel_fib_lb_completed (fun k => Nat.modulo k 2) 3 0 _ 2 2%nat).
  vm_compute. reflexivity.
Defined.

(** C1, the claim as stated fails at n = 2: the run that measures on
    slot 0 leaves the counters 1, 0, 0, 0, whose sum is 1, while
    calls(2) = 2. *)
Lemma counters_sum_is_not_the_jobs :
  completed_run 2 (load_balance_new 4 4) 1 {| allowed := 4; tbb := [1; 0; 0; 0] |}
  /\ total {| allowed := 4; tbb := [1; 0; 0; 0] |} = 1
  /\ threads_created 2 = 2
  /\ total {| allowed := 4; tbb := [1; 0; 0; 0] |} <> threads_created 2.
Proof.
  split; [|split; [reflexivity|split; [reflexivity|discriminate]]].
  apply (parallel_fib_lb_completed (fun _ => O) 2 0 _ 1 1%nat).
  vm_compute. reflexivity.
Qed.

(** ** Statistics *)

Lemma fold_min_le t : forall x, fold_left Z.min t x <= x.
Proof.
  induction t as [|h t IH]; intros x; cbn; [lia|].
  specialize (IH (Z.min x h)). lia.
Qed.

Lemma fold_min_lower t : forall x y, In y t -> fold_left Z.min t x <= y.
Proof.
  induction t as [|h t IH]; intros x y H; cbn; [contradiction|].
  destruct H as [->|H].
  - pose proof (fold_min_le t (Z.min x y)). lia.
  - apply IH, H.
Qed.

Lemma fold_min_in t : forall x, fold_left Z.min t x = x \/ In (fold_left Z.min t x) t.
Proof.
  induction t as [|h t IH]; intros x; cbn; [left; reflexivity|].
  destruct (IH (Z.min x h)) as [E|I].
  - rewrite E. destruct (Z.min_spec x h) as [[_ ->]|[_ ->]]; auto.
  - auto.
Qed.

Lemma fold_max_ge t : forall x, x <= fold_left Z.max t x.
Proof.
  induction t as [|h t IH]; intros x; cbn; [lia|].
  specialize (IH (Z.max x h)). lia.
Qed.

Lemma fold_max_upper t : forall x y, In y t -> y <= fold_left Z.max t x.
Proof.
  induction t as [|h t IH]; intros x y H; cbn; [contradiction|].
  destruct H as [->|H].
  - pose proof (fold_max_ge t (Z.max x y)). lia.
  - apply IH, H.
Qed.

Lemma fold_max_in t : forall x, fold_left Z.max t x = x \/ In (fold_left Z.max t x) t.
Proof.
  induction t as [|h t IH]; intros x; cbn; [left; reflexivity|].
  destruct (IH (Z.max x h)) as [E|I].
  - rewrite E. destruct (Z.max_spec x h) as [[_ ->]|[_ ->]]; auto.
  - auto.
Qed.

(** The two integer fields are the least and the greatest element. *)
Lemma calc_statistics_min_max v s :
  calc_statistics v = Returns s ->
  In (min s) v /\ In (max s) v /\ forall x, In x v -> min s <= x <= max s.
Proof.
  unfold calc_statistics. destruct v as [|h t]; cbn [min_element max_element]; [discriminate|].
  intros H. injection H as <-. cbn [min max].
  split; [|split].
  - destruct (fold_min_in t h) as [->|I]; [left; reflexivity|right; exact I].
  - destruct (fold_max_in t h) as [->|I]; [left; reflexivity|right; exact I].
  - intros x [<-|I].
    + pose proof (fold_min_le t h). pose proof (fold_max_ge t h). lia.
    + pose proof (fold_min_lower t h x I). pose proof (fold_max_upper t h x I). lia.
Qed.

(** While the sum of the sample stays below 2^31 the [int]
    accumulator holds it exactly. *)
Lemma accumulate_int_exact v :
  forall init,
    0 <= init ->
    Forall (fun x => 0 <= x) v ->
    init + fold_right Z.add 0 v < 2 ^ 31 ->
    accumulate_int v init = init + fold_right Z.add 0 v.
Proof.
  unfold accumulate_int.
  induction v as [|x t IH]; intros init I F B; cbn [fold_left fold_right] in *.
  - lia.
  - inversion F as [|? ? X F']; subst.
    assert (0 <= fold_right Z.add 0 t) by (clear - F'; induction F'; cbn; lia).
    assert (E : to_int (to_u64 (to_u64 init + x)) = init + x).
    { rewrite to_u64_add_l, to_u64_small by lia.
      unfold to_int. rewrite Z.mod_small by lia. lia. }
    rewrite E, IH by (try assumption; lia). lia.
Qed.

(** The sample of the specification. *)
Lemma calc_statistics_one_to_five :
  calc_statistics [1; 2; 3; 4; 5]
  = Returns {| min := 1; max := 5; avg := 3; dev := PrimFloat.sqrt 2 |}.
Proof. vm_compute. reflexivity. Qed.

(** C4, where the code leaves the claim.  The sum that the mean is
    formed from is accumulated in an [int]: on the one-element sample
    2147483648 the mean is -2147483648 and the deviation 4294967296,
    not 2147483648 and 0. *)
Lemma calc_statistics_int_accumulator :
  calc_statistics [2147483648]
  = Returns {| min := 2147483648; max := 2147483648;
               avg := PrimFloat.opp 2147483648; dev := 4294967296 |}.
Proof. vm_compute. reflexivity. Qed.

(** The same on the counters of a run for n = 46 spread evenly over
    four slots: the counters sum to fib(47) - 1 = 2971215072. *)
Lemma calc_statistics_balanced_46 :
  invocations 46 = 4 * 742803768
  /\ calc_statistics [742803768; 742803768; 742803768; 742803768]
     = Returns {| min := 742803768; max := 742803768;
                  avg := PrimFloat.opp 330938056; dev := 1073741824 |}.
Proof.
  split.
  - change 46 with (Z.of_nat 46). rewrite invocations_of_nat, fibonacci_fst_pair.
    vm_compute. reflexivity.
  - vm_compute. reflexivity.
Qed.

(** ** The sample behind the load-balance fields *)

Lemma remove_copy_nonzero l : Forall (fun x => x <> 0) (remove_copy l 0).
Proof.
  unfold remove_copy. apply Forall_forall. intros x H.
  apply filter_In in H. destruct H as [_ H].
  destruct (Z.eqb_spec x 0); [discriminate|assumption].
Qed.

Lemma sample_length lb :
  Z.of_nat (List.length (sample lb)) = Z.max (allowed lb) (distinct_slots lb).
Proof.
  unfold sample, fill_n, distinct_slots.
  rewrite length_app, repeat_length. lia.
Qed.

Lemma calc_statistics_over_length v s :
  calc_statistics v = Returns s ->
  avg s = mean_over (Z.of_nat (List.length v)) v
  /\ dev s = deviation_over (Z.of_nat (List.length v)) v.
Proof.
  unfold calc_statistics.
  destruct (min_element v) as [lo|]; [|discriminate].
  destruct (max_element v) as [hi|]; [|discriminate].
  intros H. injection H as <-. split; reflexivity.
Qed.

(** C5, as amended.  The sample is the non-zero counters followed by
    explicit zeros up to the length [allowed]; nothing is dropped when
    more than [allowed] slots were used, so its length is the greater
    of [allowed] and the number of slots used.  The mean and the
    deviation are taken over that length, the padded one, and
    [operator<<] writes the minimum, the deviation and the maximum of
    that sample. *)
Theorem load_balance_sample (lb : load_balance) :
  sample lb
  = remove_copy (tbb lb) 0 ++ repeat 0 (Z.to_nat (allowed lb - distinct_slots lb))
  /\ Forall (fun x => x <> 0) (remove_copy (tbb lb) 0)
  /\ Z.of_nat (List.length (sample lb)) = Z.max (allowed lb) (distinct_slots lb)
  /\ (forall s, calc_statistics (sample lb) = Returns s ->
        avg s = mean_over (Z.max (allowed lb) (distinct_slots lb)) (sample lb)
        /\ dev s = deviation_over (Z.max (allowed lb) (distinct_slots lb)) (sample lb)
        /\ operator_lshift lb = Returns (min s, dev s, max s))
  /\ (0 < Z.max (allowed lb) (distinct_slots lb) ->
      exists s, calc_statistics (sample lb) = Returns s).
Proof.
  split; [reflexivity|split; [apply remove_copy_nonzero|split; [apply sample_length|]]].
  split.
  - intros s H. rewrite <- sample_length.
    destruct (calc_statistics_over_length _ _ H) as [A D].
    split; [exact A|split; [exact D|]].
    unfold operator_lshift. rewrite H. reflexivity.
  - intros P. rewrite <- sample_length in P.
    destruct (sample lb) as [|h t] eqn:E; [cbn in P; lia|].
    unfold calc_statistics. cbn [min_element max_element]. eexists. reflexivity.
Qed.

(** The sample of a tracker that was allowed 4 workers and saw two
    slots used. *)
Lemma load_balance_sample_witness :
  avg {| min := 0; max := 5; avg := 2; dev := PrimFloat.sqrt 4.5 |}
  = mean_over (Z.max 4 2) [5; 3; 0; 0]
  /\ dev {| min := 0; max := 5; avg := 2; dev := PrimFloat.sqrt 4.5 |}
     = deviation_over (Z.max 4 2) [5; 3; 0; 0]
  /\ operator_lshift {| allowed := 4; tbb := [5; 0; 3; 0] |}
     = Returns (0, PrimFloat.sqrt 4.5, 5).
Proof.
  apply (proj1 (proj2 (proj2 (proj2
           (load_balance_sample {| allowed := 4; tbb := [5; 0; 3; 0] |}))))).
  vm_compute. reflexivity.
Defined.

(** C5, the claim as stated fails on the tracker that was allowed 4
    workers and saw one slot of eight used 6 times: the sample is
    6, 0, 0, 0 and one slot is distinct, yet the mean is 6/4 and the
    deviation written is sqrt(27/4); over the count of distinct slots
    they would be 6 and another deviation. *)
Lemma load_balance_sample_padded_count :
  sample {| allowed := 4; tbb := [6; 0; 0; 0; 0; 0; 0; 0] |} = [6; 0; 0; 0]
  /\ distinct_slots {| allowed := 4; tbb := [6; 0; 0; 0; 0; 0; 0; 0] |} = 1
  /\ calc_statistics (sample {| allowed := 4; tbb := [6; 0; 0; 0; 0; 0; 0; 0] |})
     = Returns {| min := 0; max := 6; avg := 1.5; dev := PrimFloat.sqrt 6.75 |}
  /\ operator_lshift {| allowed := 4; tbb := [6; 0; 0; 0; 0; 0; 0; 0] |}
     = Returns (0, PrimFloat.sqrt 6.75, 6)
  /\ mean_over 1 [6; 0; 0; 0] = 6%float
  /\ deviation_over 1 [6; 0; 0; 0] = PrimFloat.sqrt 108
  /\ (forall s,
        calc_statistics (sample {| allowed := 4; tbb := [6; 0; 0; 0; 0; 0; 0; 0] |})
        = Returns s ->
        avg s <> mean_over
                   (distinct_slots {| allowed := 4; tbb := [6; 0; 0; 0; 0; 0; 0; 0] |})
                   (sample {| allowed := 4; tbb := [6; 0; 0; 0; 0; 0; 0; 0] |})
        /\ dev s <> deviation_over
                      (distinct_slots {| allowed := 4; tbb := [6; 0; 0; 0; 0; 0; 0; 0] |})
                      (sample {| allowed := 4; tbb := [6; 0; 0; 0; 0; 0; 0; 0] |})).
Proof.
  do 6 (split; [vm_compute; reflexivity|]).
  intros s H. vm_compute in H. injection H as <-.
  split; intros E.
  - apply (f_equal (fun x => PrimFloat.eqb x 6)) in E. vm_compute in E. discriminate E.
  - apply (f_equal (fun x => PrimFloat.eqb x (PrimFloat.sqrt 108))) in E.
    vm_compute in E. discriminate E.
Qed.

(** ** The empty sample *)

(** C6, as amended.  [calc_statistics] has no check and no error
    path: on the empty sample it dereferences the end of the range,
    which is undefined behaviour, on any other sample it returns, and
    on no sample does it report an error. *)
Theorem calc_statistics_reports_nothing (v : list Z) :
  (v = [] -> calc_statistics v = Undefined)
  /\ (v <> [] -> exists s, calc_statistics v = Returns s)
  /\ (forall d, calc_statistics v <> Dies d).
Proof.
  split; [|split].
  - intros ->. reflexivity.
  - intros H. destruct v as [|h t]; [contradiction|].
    unfold calc_statistics. cbn [min_element max_element]. eexists. reflexivity.
  - intros d. unfold calc_statistics.
    destruct (min_element v), (max_element v); discriminate.
Qed.

Lemma calc_statistics_reports_nothing_witness :
  calc_statistics [] = Undefined /\ exists s, calc_statistics [3] = Returns s.
Proof.
  split.
  - apply (proj1 (calc_statistics_reports_nothing [])). reflexivity.
  - apply (proj1 (proj2 (calc_statistics_reports_nothing [3]))). discriminate.
Defined.

(** C6, the claim as stated fails on the empty sample: no error is
    reported. *)
Lemma calc_statistics_empty_sample :
  calc_statistics [] = Undefined
  /\ ~ (exists d, calc_statistics [] = Dies d).
Proof.
  split; [reflexivity|]. intros [d H]. discriminate H.
Qed.

(** ** The pinning observer *)

Lemma to_unsigned_range z : 0 <= to_unsigned z < 2 ^ 32.
Proof. unfold to_unsigned. apply Z.mod_pos_bound. lia. Qed.

Lemma to_unsigned_succ c k :
  to_unsigned (to_unsigned (c + 1) + Z.of_nat k) = to_unsigned (c + Z.of_nat (S k)).
Proof.
  unfold to_unsigned. rewrite Z.add_mod_idemp_l by lia. f_equal. lia.
Qed.

Section Entries.

Variable sched_setaffinity : Z -> option string.

(** One entry: the unit is the counter modulo [nprocs], and the
    counter goes up by one, in 32 bits. *)
Lemma on_scheduler_entry_returns w o o' cpu :
  on_scheduler_entry sched_setaffinity w o = Returns (o', cpu) ->
  cpu = counter o mod nprocs o
  /\ nprocs o' = nprocs o
  /\ counter o' = to_unsigned (counter o + 1).
Proof.
  unfold on_scheduler_entry.
  destruct (nprocs o =? 0); [discriminate|].
  destruct (sched_setaffinity (counter o mod nprocs o)); [discriminate|].
  intros H. injection H as <- <-. auto.
Qed.

(** The units given out, whatever the calls of [sched_setaffinity]
    answer: entry number [k] gets the counter's value at that entry,
    modulo [nprocs]. *)
Lemma scheduler_entries_nth joins :
  forall o k cpu,
    0 <= counter o < 2 ^ 32 ->
    nth_error (fst (scheduler_entries sched_setaffinity joins o)) k = Some cpu ->
    cpu = to_unsigned (counter o + Z.of_nat k) mod nprocs o.
Proof.
  induction joins as [|w rest IH]; intros o k cpu R H; cbn [scheduler_entries] in H.
  - destruct k; discriminate H.
  - destruct (on_scheduler_entry sched_setaffinity w o) as [[o' c]|d|] eqn:E.
    + destruct (on_scheduler_entry_returns _ _ _ _ E) as (-> & N & C).
      destruct (scheduler_entries sched_setaffinity rest o') as [cpus r] eqn:E'.
      cbn [fst] in H. destruct k as [|k]; cbn [nth_error] in H.
      * injection H as <-. rewrite Z.add_0_r.
        unfold to_unsigned. rewrite (Z.mod_small (counter o) (2 ^ 32)) by exact R. reflexivity.
      * specialize (IH o' k cpu). rewrite E' in IH. cbn [fst] in IH.
        rewrite (IH ltac:(rewrite C; apply to_unsigned_range) H), N, C.
        rewrite to_unsigned_succ. reflexivity.
    + destruct k; discriminate H.
    + destruct k; discriminate H.
Qed.

Hypothesis always_succeeds : forall cpu, sched_setaffinity cpu = None.

(** When every call of [sched_setaffinity] succeeds, every entry is
    given a unit and the counter has counted them all. *)
Lemma scheduler_entries_all joins :
  forall o,
    nprocs o <> 0 ->
    List.length (fst (scheduler_entries sched_setaffinity joins o)) = List.length joins
    /\ exists o', snd (scheduler_entries sched_setaffinity joins o) = Returns o'
                  /\ nprocs o' = nprocs o
                  /\ to_unsigned (counter o')
                     = to_unsigned (counter o + Z.of_nat (List.length joins)).
Proof.
  induction joins as [|w rest IH]; intros o N; cbn [scheduler_entries].
  - split; [reflexivity|]. exists o. cbn. rewrite Z.add_0_r. auto.
  - unfold on_scheduler_entry. destruct (Z.eqb_spec (nprocs o) 0) as [E|_]; [contradiction|].
    rewrite always_succeeds.
    destruct (IH {| nprocs := nprocs o; counter := to_unsigned (counter o + 1) |} N)
      as (L & o' & R & N' & C).
    destruct (scheduler_entries sched_setaffinity rest _) as [cpus r].
    cbn [fst snd List.length nprocs counter] in *. split; [congruence|].
    exists o'. split; [exact R|split; [exact N'|]].
    rewrite C. apply to_unsigned_succ.
Qed.

Lemma scheduler_entries_unit joins o k :
  nprocs o <> 0 ->
  0 <= counter o < 2 ^ 32 ->
  (k < List.length joins)%nat ->
  nth_error (fst (scheduler_entries sched_setaffinity joins o)) k
  = Some (to_unsigned (counter o + Z.of_nat k) mod nprocs o).
Proof.
  intros N R L.
  destruct (scheduler_entries_all joins o N) as [Len _].
  destruct (nth_error (fst (scheduler_entries sched_setaffinity joins o)) k) as [cpu|] eqn:E.
  - f_equal. exact (scheduler_entries_nth _ _ _ _ R E).
  - apply nth_error_None in E. lia.
Qed.

End Entries.

(** C8, as amended.  With U hardware units, the k-th entry
    (0-indexed, in the order of the increments of the one shared
    counter) is given unit (k mod 2^32) mod U, the counter being a
    32-bit unsigned; that is k mod U for every k below 2^32.  While
    [sched_setaffinity] succeeds every entry is given a unit and the
    counter is incremented once per entry. *)
Theorem pinning_round_robin (sched_setaffinity : Z -> option string)
    (get_nprocs : Z) (joins : list bool) :
  0 < get_nprocs < 2 ^ 31 ->
  (forall k cpu,
     nth_error (fst (scheduler_entries sched_setaffinity joins
                       (pinning_observer_new get_nprocs))) k = Some cpu ->
     cpu = (Z.of_nat k mod 2 ^ 32) mod get_nprocs
     /\ (Z.of_nat k < 2 ^ 32 -> cpu = Z.of_nat k mod get_nprocs))
  /\ ((forall cpu, sched_setaffinity cpu = None) ->
      List.length (fst (scheduler_entries sched_setaffinity joins
                          (pinning_observer_new get_nprocs)))
      = List.length joins
      /\ exists o,
           snd (scheduler_entries sched_setaffinity joins
                  (pinning_observer_new get_nprocs)) = Returns o
           /\ to_unsigned (counter o) = Z.of_nat (List.length joins) mod 2 ^ 32).
Proof.
  intros U.
  assert (N : nprocs (pinning_observer_new get_nprocs) = get_nprocs).
  { cbn. unfold to_unsigned. apply Z.mod_small. lia. }
  split.
  - intros k cpu H.
    apply scheduler_entries_nth in H; [|cbn; lia].
    rewrite N in H. cbn [counter pinning_observer_new] in H. rewrite Z.add_0_l in H.
    split; [exact H|]. intros K. rewrite H. unfold to_unsigned.
    rewrite (Z.mod_small (Z.of_nat k) (2 ^ 32)) by lia. reflexivity.
  - intros S.
    destruct (scheduler_entries_all _ S joins (pinning_observer_new get_nprocs))
      as (L & o & R & _ & C).
    { rewrite N. lia. }
    split; [exact L|]. exists o. split; [exact R|]. rewrite C. reflexivity.
Qed.

Lemma pinning_round_robin_witness :
  (forall k cpu,
     nth_error (fst (scheduler_entries (fun _ => None) [true; true; false; true; true]
                       (pinning_observer_new 3))) k = Some cpu ->
     cpu = (Z.of_nat k mod 2 ^ 32) mod 3
     /\ (Z.of_nat k < 2 ^ 32 -> cpu = Z.of_nat k mod 3))
  /\ ((forall cpu : Z, (fun _ : Z => @None string) cpu = None) ->
      List.length (fst (scheduler_entries (fun _ => None) [true; true; false; true; true]
                          (pinning_observer_new 3)))
      = List.length [true; true; false; true; true]
      /\ exists o,
           snd (scheduler_entries (fun _ => None) [true; true; false; true; true]
                  (pinning_observer_new 3)) = Returns o
           /\ to_unsigned (counter o)
              = Z.of_nat (List.length [true; true; false; true; true]) mod 2 ^ 32).
Proof. apply (pinning_round_robin (fun _ => None) 3). lia. Defined.

(** C8, the claim as stated fails at k = 2^32 with three hardware
    units: after 2^32 entries the counter is 0 again, so the next
    entry is given unit 0, while 2^32 mod 3 = 1. *)
Lemma pinning_counter_wraps :
  nth_error (fst (scheduler_entries (fun _ => None)
                    (repeat true (Z.to_nat (2 ^ 32 + 1)))
                    (pinning_observer_new 3)))
            (Z.to_nat (2 ^ 32))
  = Some 0
  /\ Z.of_nat (Z.to_nat (2 ^ 32)) mod 3 = 1
  /\ nth_error (fst (scheduler_entries (fun _ => None)
                       (repeat true (Z.to_nat (2 ^ 32 + 1)))
                       (pinning_observer_new 3)))
               (Z.to_nat (2 ^ 32))
     <> Some (Z.of_nat (Z.to_nat (2 ^ 32)) mod 3).
Proof.
  assert (A : nth_error (fst (scheduler_entries (fun _ => None)
                                (repeat true (Z.to_nat (2 ^ 32 + 1)))
                                (pinning_observer_new 3)))
                        (Z.to_nat (2 ^ 32))
              = Some 0).
  { rewrite scheduler_entries_unit.
    - rewrite Z2Nat.id by lia. reflexivity.
    - reflexivity.
    - discriminate.
    - cbn [counter pinning_observer_new]. lia.
    - rewrite repeat_length. apply Z2Nat.inj_lt; lia. }
  assert (B : Z.of_nat (Z.to_nat (2 ^ 32)) mod 3 = 1).
  { rewrite Z2Nat.id by lia. reflexivity. }
  split; [exact A|split; [exact B|]].
  rewrite A, B. discriminate.
Qed.

(** ** The drivers *)


(** C7, where the code leaves the claim.  On the records [5 1] and
    [10 4] the driver of recursive-fib.cpp writes a line for each: the
    record with one worker is run like any other, nothing is reported
    and nothing is skipped. *)
Lemma recursive_fib_main_one_worker :
  recursive_fib.main four_slots "recursive-fib" []
    {| records := [(5, 1); (10, 4)]; eof := true |}
  = ([Stdout {| recursive_fib.fib_num := 5; recursive_fib.fib_number := 5;
                recursive_fib.nthread := 1; recursive_fib.jobs := 14;
                recursive_fib.total_time := 0.25; recursive_fib.throughput := 56;
                recursive_fib.lb_min := 1; recursive_fib.lb_dev := PrimFloat.sqrt 0.1875;
                recursive_fib.lb_max := 2 |};
      Stdout {| recursive_fib.fib_num := 10; recursive_fib.fib_number := 55;
                recursive_fib.nthread := 4; recursive_fib.jobs := 176;
                recursive_fib.total_time := 0.25; recursive_fib.throughput := 704;
                recursive_fib.lb_min := 22; recursive_fib.lb_dev := 0;
                recursive_fib.lb_max := 22 |}],
     Exit_success).
Proof. vm_compute. reflexivity. Qed.

(** The sibling driver does what the claim says: a record with fewer
    than two threads is reported and skipped, and the loop goes on. *)
Lemma noploop_read_loop_skips rt count method threads iterations rest run :
  threads < 2 ->
  noploop.read_loop rt count ((method, threads, iterations) :: rest) run
  = Stderr "Threads must be < 2" :: noploop.read_loop rt count rest run.
Proof.
  intros H. cbn [noploop.read_loop].
  destruct (Z.ltb_spec threads 2); [reflexivity|lia].
Qed.

Lemma noploop_main_one_worker :
  noploop.main four_slots noploop.Other_argument
    {| records := [(0, 1, 100); (0, 4, 100)]; eof := true |}
  = ([Stderr "Threads must be < 2";
      Stdout {| noploop.method := 0; noploop.threads := 4; noploop.iterations := 100;
                noploop.time := 0.25; noploop.thruput := 400 |}],
     Exit_success).
Proof. vm_compute. reflexivity. Qed.

(** The empty sample is within reach of the driver: on the record
    [1 0] no slot is used and no worker is allowed. *)
Lemma recursive_fib_main_empty_sample :
  recursive_fib.main four_slots "recursive-fib" [] {| records := [(1, 0)]; eof := true |}
  = ([], Undefined_behaviour).
Proof. vm_compute. reflexivity. Qed.

(** * Further properties of the code *)

(** ** What the statistics report *)

Lemma calc_statistics_returns v : v <> [] -> exists s, calc_statistics v = Returns s.
Proof.
  intros H. destruct v as [|h t]; [contradiction|].
  unfold calc_statistics. cbn [min_element max_element]. eexists. reflexivity.
Qed.

Lemma sample_elements lb x :
  In x (sample lb) <->
  (In x (tbb lb) /\ x <> 0) \/ (x = 0 /\ distinct_slots lb < allowed lb).
Proof.
  unfold sample, fill_n, distinct_slots, remove_copy.
  rewrite in_app_iff, filter_In. split.
  - intros [[I N]|R].
    + left. split; [exact I|]. destruct (Z.eqb_spec x 0); [discriminate|assumption].
    + right. pose proof (repeat_spec _ _ _ R) as ->. split; [reflexivity|].
      destruct (Z.to_nat _) eqn:E in R; [contradiction|]. lia.
  - intros [[I N]|[-> L]].
    + left. split; [exact I|]. destruct (Z.eqb_spec x 0); [contradiction|reflexivity].
    + right.
      destruct (Z.to_nat (allowed lb
                          - Z.of_nat (List.length
                                        (filter (fun x => negb (x =? 0)) (tbb lb)))))
        eqn:E; [lia|]. left. reflexivity.
Qed.

(** X1.  The minimum and the maximum that [operator<<] writes.  With
    counters that are not negative, the maximum is the greatest
    counter of the tracker, the minimum is the least element of the
    sample and is 0 exactly when fewer slots were used than workers
    were allowed, and the maximum is 0 exactly when no slot was used. *)
Theorem operator_lshift_extremes (lb : load_balance) (lo hi : Z) (d : float) :
  Forall (fun c => 0 <= c) (tbb lb) ->
  operator_lshift lb = Returns (lo, d, hi) ->
  In lo (sample lb) /\ In hi (sample lb)
  /\ (forall x, In x (sample lb) -> lo <= x <= hi)
  /\ (forall c, In c (tbb lb) -> c <= hi)
  /\ (lo = 0 <-> distinct_slots lb < allowed lb)
  /\ (hi = 0 <-> distinct_slots lb = 0).
Proof.
  intros F H. unfold operator_lshift in H.
  destruct (calc_statistics (sample lb)) as [s|e|] eqn:E; try discriminate.
  injection H as <- _ <-.
  destruct (calc_statistics_min_max _ _ E) as (Ilo & Ihi & B).
  assert (P : forall x, In x (sample lb) -> 0 <= x).
  { intros x I. apply sample_elements in I. destruct I as [[I _]|[-> _]]; [|lia].
    rewrite Forall_forall in F. apply F, I. }
  split; [exact Ilo|split; [exact Ihi|split; [exact B|split; [|split]]]].
  - intros c I. destruct (Z.eq_dec c 0) as [->|N].
    + apply P, Ihi.
    + apply B. apply sample_elements. left. split; assumption.
  - split.
    + intros Z0. apply sample_elements in Ilo. destruct Ilo as [[_ N]|[_ L]]; [lia|exact L].
    + intros L.
      assert (I0 : In 0 (sample lb)) by (apply sample_elements; right; split; [reflexivity|exact L]).
      pose proof (B 0 I0). pose proof (P _ Ilo). lia.
  - unfold distinct_slots, remove_copy. split.
    + intros Z0.
      destruct (filter (fun x => negb (x =? 0)) (tbb lb)) as [|c t] eqn:Fl; [reflexivity|].
      assert (I : In c (filter (fun x => negb (x =? 0)) (tbb lb))) by (rewrite Fl; left; reflexivity).
      apply filter_In in I. destruct I as [I N].
      destruct (Z.eqb_spec c 0) as [|N']; [discriminate|].
      assert (Ic : In c (sample lb)) by (apply sample_elements; left; split; assumption).
      pose proof (B c Ic). pose proof (P c Ic). lia.
    + intros L. apply sample_elements in Ihi. destruct Ihi as [[I N]|[Hz _]]; [|exact Hz].
      exfalso.
      assert (I' : In (max s) (filter (fun x => negb (x =? 0)) (tbb lb))).
      { apply filter_In. split; [exact I|]. destruct (Z.eqb_spec (max s) 0); [contradiction|reflexivity]. }
      destruct (filter (fun x => negb (x =? 0)) (tbb lb)); [contradiction|discriminate L].
Qed.

Lemma operator_lshift_extremes_witness :
  In 0 (sample {| allowed := 4; tbb := [5; 0; 3; 0] |})
  /\ In 5 (sample {| allowed := 4; tbb := [5; 0; 3; 0] |})
  /\ (forall x, In x (sample {| allowed := 4; tbb := [5; 0; 3; 0] |}) -> 0 <= x <= 5)
  /\ (forall c, In c (tbb {| allowed := 4; tbb := [5; 0; 3; 0] |}) -> c <= 5)
  /\ (0 = 0 <-> distinct_slots {| allowed := 4; tbb := [5; 0; 3; 0] |}
                < allowed {| allowed := 4; tbb := [5; 0; 3; 0] |})
  /\ (5 = 0 <-> distinct_slots {| allowed := 4; tbb := [5; 0; 3; 0] |} = 0).
Proof.
  apply (operator_lshift_extremes {| allowed := 4; tbb := [5; 0; 3; 0] |} 0 5
           (PrimFloat.sqrt 4.5)).
  - repeat constructor; lia.
  - vm_compute. reflexivity.
Defined.

(** X2.  The mean of a sample of counters whose sum stays below 2^31 is
    the quotient, in doubles, of that sum by the length of the
    sample. *)
Theorem calc_statistics_mean (v : list Z) (s : statistics) :
  Forall (fun x => 0 <= x) v ->
  fold_right Z.add 0 v < 2 ^ 31 ->
  calc_statistics v = Returns s ->
  avg s = PrimFloat.div (double_of_int (fold_right Z.add 0 v))
                        (double_of_u64 (Z.of_nat (List.length v))).
Proof.
  intros F B H.
  destruct (calc_statistics_over_length _ _ H) as [A _].
  rewrite A. unfold mean_over.
  rewrite (accumulate_int_exact v 0 ltac:(lia) F ltac:(lia)). reflexivity.
Qed.

Lemma calc_statistics_mean_witness :
  avg {| min := 1; max := 5; avg := 3; dev := PrimFloat.sqrt 2 |}
  = PrimFloat.div (double_of_int (fold_right Z.add 0 [1; 2; 3; 4; 5]))
                  (double_of_u64 (Z.of_nat (List.length [1; 2; 3; 4; 5]))).
Proof.
  apply (calc_statistics_mean [1; 2; 3; 4; 5]).
  - repeat constructor; lia.
  - vm_compute. reflexivity.
  - vm_compute. reflexivity.
Defined.

(** ** The arguments of recursive-fib *)

Lemma to_int_range z : - 2 ^ 31 <= to_int z < 2 ^ 31.
Proof.
  unfold to_int. pose proof (Z.mod_pos_bound (z + 2 ^ 31) (2 ^ 32) ltac:(lia)). lia.
Qed.

Lemma last_default (l : list Z) :
  forall d d', l <> [] -> last l d = last l d'.
Proof.
  induction l as [|x t IH]; intros d d' N; [contradiction|].
  destruct t as [|y t']; [reflexivity|].
  cbn [last] in *. apply IH. discriminate.
Qed.

Lemma last_cons (x : Z) (l : list Z) :
  forall d d', l <> [] -> last (x :: l) d = last l d'.
Proof.
  intros d d' N. destruct l as [|y t]; [contradiction|].
  change (last (x :: y :: t) d) with (last (y :: t) d).
  apply last_default. discriminate.
Qed.

Lemma parse_arguments_returns args :
  forall tests0 t,
    recursive_fib.parse_arguments args tests0 = Returns t <->
    Forall (fun a => recursive_fib.at_end a = true
                     /\ 1 <= to_int (recursive_fib.strtoul a)) args
    /\ t = last (map (fun a => to_int (recursive_fib.strtoul a)) args) tests0.
Proof.
  induction args as [|a rest IH]; intros tests0 t; cbn [recursive_fib.parse_arguments].
  - cbn. split.
    + intros H. injection H as <-. split; [constructor|reflexivity].
    + intros [_ ->]. reflexivity.
  - assert (Last : forall x,
               last (map (fun a => to_int (recursive_fib.strtoul a)) (a :: rest)) x
               = last (map (fun a => to_int (recursive_fib.strtoul a)) rest)
                      (to_int (recursive_fib.strtoul a))).
    { intros x. destruct rest as [|b rest']; [reflexivity|].
      cbn [map]. apply last_cons. discriminate. }
    destruct (recursive_fib.at_end a) eqn:E; cbn [negb].
    + destruct (Z.ltb_spec (to_int (recursive_fib.strtoul a)) 1) as [L|L].
      * split; [discriminate|].
        intros [F _]. inversion F as [|? ? [_ G] _]; subst. lia.
      * rewrite IH, Last. split.
        -- intros [F ->]. split; [|reflexivity].
           constructor; [split; [exact E|exact L]|exact F].
        -- intros [F ->]. inversion F; subst. split; [assumption|reflexivity].
    + split; [discriminate|].
      intros [F _]. inversion F as [|? ? [G _] _]; subst. congruence.
Qed.

Lemma parse_arguments_dies args :
  forall tests0 d,
    recursive_fib.parse_arguments args tests0 = Dies d ->
    d = "argument must be a valid integer"%string
    \/ d = "argument must be greater than 0"%string.
Proof.
  induction args as [|a rest IH]; intros tests0 d; cbn [recursive_fib.parse_arguments].
  - discriminate.
  - destruct (negb (recursive_fib.at_end a)).
    + intros H. injection H as <-. left. reflexivity.
    + destruct (to_int (recursive_fib.strtoul a) <? 1).
      * intros H. injection H as <-. right. reflexivity.
      * apply IH.
Qed.

Lemma parse_arguments_defined args :
  forall tests0, recursive_fib.parse_arguments args tests0 <> Undefined.
Proof.
  induction args as [|a rest IH]; intros tests0; cbn [recursive_fib.parse_arguments].
  - discriminate.
  - destruct (negb (recursive_fib.at_end a)); [discriminate|].
    destruct (to_int (recursive_fib.strtoul a) <? 1); [discriminate|apply IH].
Qed.

Lemma last_argument_positive args :
  forall tests0,
    args <> [] ->
    Forall (fun a => recursive_fib.at_end a = true
                     /\ 1 <= to_int (recursive_fib.strtoul a)) args ->
    1 <= last (map (fun a => to_int (recursive_fib.strtoul a)) args) tests0 < 2 ^ 31.
Proof.
  induction args as [|a rest IH]; intros tests0 N F; [contradiction|].
  inversion F as [|? ? [_ G] F']; subst.
  destruct rest as [|b rest'].
  - cbn. pose proof (to_int_range (recursive_fib.strtoul a)). lia.
  - specialize (IH tests0 ltac:(discriminate) F').
    cbn [map] in *. rewrite (last_cons _ _ tests0 tests0) by discriminate. exact IH.
Qed.

(** X3.  The loop over the arguments of recursive-fib returns exactly
    when every argument
    is a number read to its end whose value, as an [int], is at least
    1; the count of tests is then the last argument's, between 1 and
    2^31 - 1, or the count the loop started from when there is no
    argument.  Otherwise it ends the process with one of its two
    diagnostics; it has no undefined behaviour. *)
Theorem parse_arguments_accepts (args : list recursive_fib.argument) (tests0 t : Z) :
  (recursive_fib.parse_arguments args tests0 = Returns t <->
   Forall (fun a => recursive_fib.at_end a = true
                    /\ 1 <= to_int (recursive_fib.strtoul a)) args
   /\ t = last (map (fun a => to_int (recursive_fib.strtoul a)) args) tests0)
  /\ (forall d, recursive_fib.parse_arguments args tests0 = Dies d ->
        d = "argument must be a valid integer"%string
        \/ d = "argument must be greater than 0"%string)
  /\ recursive_fib.parse_arguments args tests0 <> Undefined
  /\ (args <> [] -> recursive_fib.parse_arguments args tests0 = Returns t ->
        1 <= t < 2 ^ 31).
Proof.
  split; [apply parse_arguments_returns|].
  split; [apply parse_arguments_dies|].
  split; [apply parse_arguments_defined|].
  intros N H. apply parse_arguments_returns in H. destruct H as [F ->].
  apply last_argument_positive; assumption.
Qed.

(** ** What a run leaves of the tracker *)

Lemma lb_step_shape c1 c2 :
  lb_step c1 c2 ->
  List.length (tbb (fst c2)) = List.length (tbb (fst c1))
  /\ allowed (fst c2) = allowed (fst c1).
Proof.
  induction 1 as [lb n H|lb lb' n index H M|lb lb' t t' u _ IH|lb lb' t u u' _ IH|lb x y];
    cbn [fst] in *; auto.
  destruct (take_measurement_total _ _ _ M) as (c & _ & _ & L & A). auto.
Qed.

Lemma lb_steps_shape c1 c2 :
  lb_steps c1 c2 ->
  List.length (tbb (fst c2)) = List.length (tbb (fst c1))
  /\ allowed (fst c2) = allowed (fst c1).
Proof.
  induction 1 as [|a b c S1 _ [IL IA]]; [auto|].
  destruct (lb_step_shape _ _ S1) as [L A]. split; congruence.
Qed.

Lemma lb_steps_nonneg c1 c2 :
  lb_steps c1 c2 ->
  Forall (fun c => 0 <= c) (tbb (fst c1)) ->
  total (fst c1) + pending (snd c1) < 2 ^ 64 ->
  Forall (fun c => 0 <= c) (tbb (fst c2)).
Proof.
  induction 1 as [|a b c S1 _ IH]; intros F B; [exact F|].
  destruct (lb_step_exact _ _ S1 F B) as [F' E].
  apply IH; [exact F'|lia].
Qed.

(** The schedule takes one measurement per call with an argument of
    at least 2. *)
Lemma parallel_fib_lb_measurements index_of n :
  forall k lb v k' lb',
    parallel_fib_lb index_of n k lb = Returns (v, k', lb') ->
    Z.of_nat k' = Z.of_nat k + invocations n.
Proof.
  induction n as [n L|n L IH1 IH2] using argument_induction; intros k lb v k' lb' H;
    rewrite parallel_fib_lb_eq in H; rewrite invocations_eq;
    destruct (Z.ltb_spec n 2) as [L'|L']; try lia.
  - injection H as _ <- _. lia.
  - destruct (take_measurement (index_of k) lb) as [lb1|] eqn:M; [|discriminate].
    destruct (parallel_fib_lb index_of (n - 1) (S k) lb1) as [[[x k2] lb2]|d|] eqn:R1;
      try discriminate.
    destruct (parallel_fib_lb index_of (n - 2) k2 lb2) as [[[y k3] lb3]|d|] eqn:R2;
      try discriminate.
    injection H as _ <- _.
    rewrite (IH2 _ _ _ _ _ R2), (IH1 _ _ _ _ _ R1). lia.
Qed.

(** X4.  Every completed run, whatever the interleaving and whatever the
    tracker held, leaves the tracker with the slots it had and the
    workers it was allowed; the schedule that runs the first branch
    first has then taken exactly one measurement per call with an
    argument of at least 2. *)
Theorem run_keeps_the_tracker_shape (n : Z) (lb : load_balance) :
  (forall v lb',
     completed_run n lb v lb' ->
     List.length (tbb lb') = List.length (tbb lb) /\ allowed lb' = allowed lb)
  /\ (forall index_of k v k' lb',
        parallel_fib_lb index_of n k lb = Returns (v, k', lb') ->
        List.length (tbb lb') = List.length (tbb lb)
        /\ allowed lb' = allowed lb
        /\ Z.of_nat k' = Z.of_nat k + invocations n).
Proof.
  split.
  - intros v lb' H. exact (lb_steps_shape _ _ H).
  - intros index_of k v k' lb' H.
    destruct (lb_steps_shape _ _ (parallel_fib_lb_completed _ _ _ _ _ _ _ H)) as [L A].
    split; [exact L|split; [exact A|]].
    exact (parallel_fib_lb_measurements _ _ _ _ _ _ _ H).
Qed.

Lemma run_keeps_the_tracker_shape_witness :
  List.length (tbb {| allowed := 2; tbb := [1; 1] |})
  = List.length (tbb (load_balance_new 2 2))
  /\ allowed {| allowed := 2; tbb := [1; 1] |} = allowed (load_balance_new 2 2)
  /\ Z.of_nat 2 = Z.of_nat 0 + invocations 3.
Proof.
  apply (proj2 (run_keeps_the_tracker_shape 3 (load_balance_new 2 2))
           (fun k => Nat.modulo k 2) 0%nat 2 2%nat).
  vm_compute. reflexivity.
Defined.

(** X5.  After a completed run for n up to 91 on a fresh tracker no
    counter is negative or above the number of calls with an argument
    of at least 2, and so are the minimum and the maximum that
    [operator<<] writes. *)
Theorem counters_within_the_calls (n a slots v : Z) (lb' : load_balance) :
  n <= 91 ->
  completed_run n (load_balance_new a slots) v lb' ->
  Forall (fun c => 0 <= c <= invocations n) (tbb lb')
  /\ (forall lo d hi,
        operator_lshift lb' = Returns (lo, d, hi) ->
        0 <= lo <= hi /\ hi <= invocations n).
Proof.
  intros L H.
  pose proof (invocations_exact n L) as R.
  assert (F : Forall (fun c => 0 <= c) (tbb lb')).
  { apply (lb_steps_nonneg _ _ H); cbn [fst snd pending].
    - apply repeat_zero_nonneg.
    - rewrite total_new. lia. }
  assert (T : total lb' = invocations n).
  { pose proof (lb_steps_exact _ _ H) as X. cbn [fst snd pending] in X.
    rewrite total_new in X. specialize (X (repeat_zero_nonneg _) ltac:(lia)). lia. }
  assert (B : Forall (fun c => 0 <= c <= invocations n) (tbb lb')).
  { apply Forall_forall. intros c I.
    destruct (In_nth_error _ _ I) as [i E].
    pose proof (nth_error_le_sum _ _ _ F E) as Q. fold (total lb') in Q. lia. }
  split; [exact B|].
  intros lo d hi O. unfold operator_lshift in O.
  destruct (calc_statistics (sample lb')) as [s|e|] eqn:E; try discriminate.
  injection O as <- _ <-.
  destruct (calc_statistics_min_max _ _ E) as (Ilo & Ihi & M).
  assert (P : forall x, In x (sample lb') -> 0 <= x <= invocations n).
  { intros x I. apply sample_elements in I. destruct I as [[I _]|[-> _]].
    - rewrite Forall_forall in B. apply B, I.
    - pose proof (invocations_nonneg n). lia. }
  pose proof (P _ Ilo). pose proof (P _ Ihi). pose proof (M _ Ihi). lia.
Qed.

Lemma counters_within_the_calls_witness :
  Forall (fun c => 0 <= c <= invocations 3) (tbb {| allowed := 2; tbb := [1; 1] |})
  /\ (forall lo d hi,
        operator_lshift {| allowed := 2; tbb := [1; 1] |} = Returns (lo, d, hi) ->
        0 <= lo <= hi /\ hi <= invocations 3).
Proof.
  apply (counters_within_the_calls 3 2 2 2); [lia|].
  apply (parallel_fib_lb_completed (fun k => Nat.modulo k 2) 3 0 _ 2 2%nat).
  vm_compute. reflexivity.
Defined.

(** ** The instrumented workload returns what the plain one returns *)

Lemma lb_steps_slots c1 c2 :
  lb_steps c1 c2 -> tbb (fst c1) <> [] -> tbb (fst c2) <> [].
Proof.
  intros H N. destruct (lb_steps_shape _ _ H) as [L _].
  destruct (tbb (fst c2)); [|discriminate].
  destruct (tbb (fst c1)); [contradiction|discriminate].
Qed.

(** On a tracker with a slot no task is stuck: whatever has been done,
    the rest can be run to its end. *)
Lemma task_completes t :
  forall lb, tbb lb <> [] -> exists lb', lb_steps (lb, t) (lb', Done (value_of t)).
Proof.
  induction t as [n|t IHt u IHu|v]; intros lb N.
  - destruct (completed_run_exists n lb N) as (v & lb' & R).
    exists lb'. cbn [value_of]. rewrite <- (completed_run_value _ _ _ _ R). exact R.
  - destruct (IHt lb N) as (lb1 & R1).
    destruct (IHu lb1 (lb_steps_slots _ _ R1 N)) as (lb2 & R2).
    exists lb2. cbn [value_of].
    eapply lb_steps_trans; [apply lb_steps_first, R1|].
    eapply lb_steps_trans; [apply lb_steps_second, R2|].
    eapply steps_cons; [apply step_join|apply steps_refl].
  - exists lb. apply steps_refl.
Qed.

(** A call with an argument below 2 takes its one step on any
    tracker. *)
Lemma leaf_completes n lb c :
  n < 2 -> lb_steps (lb, Call n) c -> lb_steps c (lb, Done (parallel_fib n)).
Proof.
  intros L H.
  assert (V : parallel_fib n = to_u64 n).
  { rewrite parallel_fib_eq. destruct (Z.ltb_spec n 2); [reflexivity|lia]. }
  rewrite V.
  inversion H as [|c1 c2 c3 S1 S2]; subst.
  - eapply steps_cons; [apply step_leaf, L|apply steps_refl].
  - inversion S1; subst; [|lia].
    inversion S2 as [|d1 d2 d3 T1 T2]; subst.
    + apply steps_refl.
    + inversion T1.
Qed.

Lemma steps_left_nonneg t : 0 <= steps_left t.
Proof.
  induction t as [n|t1 IH1 t2 IH2|v]; cbn [steps_left];
    [pose proof (invocations_nonneg n)|..]; lia.
Qed.

(** Every step is one of the steps a task had to take. *)
Lemma lb_step_steps_left c1 c2 :
  lb_step c1 c2 -> steps_left (snd c1) = steps_left (snd c2) + 1.
Proof.
  induction 1 as [lb n H|lb lb' n index H _|lb lb' t t' u _ IH|lb lb' t u u' _ IH|lb x y];
    cbn [snd steps_left] in *.
  - rewrite invocations_eq. destruct (Z.ltb_spec n 2); lia.
  - rewrite (invocations_eq n). destruct (Z.ltb_spec n 2); lia.
  - lia.
  - lia.
  - lia.
Qed.

(** No run goes on for ever. *)
Lemma lb_runs_end : well_founded (fun c' c : load_balance * task => lb_step c c').
Proof.
  apply (well_founded_lt_compat _ (fun c => Z.to_nat (steps_left (snd c)))).
  intros c' c H. pose proof (lb_step_steps_left _ _ H).
  pose proof (steps_left_nonneg (snd c')). lia.
Qed.

(** The schedule returns the value of the plain workload as soon as
    its measurements fall on slots of the tracker. *)
Lemma parallel_fib_lb_value index_of n k lb :
  (2 <= n -> forall j, (index_of j < List.length (tbb lb))%nat) ->
  exists k' lb', parallel_fib_lb index_of n k lb = Returns (parallel_fib n, k', lb').
Proof.
  intros V. destruct (Z_lt_dec n 2) as [L|L].
  - exists k, lb. rewrite parallel_fib_lb_eq, parallel_fib_eq.
    destruct (Z.ltb_spec n 2); [reflexivity|lia].
  - destruct (parallel_fib_lb_returns index_of n k lb ltac:(apply V; lia))
      as (v & k' & lb' & R & _).
    exists k', lb'. rewrite R.
    rewrite (completed_run_value _ _ _ _ (parallel_fib_lb_completed _ _ _ _ _ _ _ R)).
    reflexivity.
Qed.

(** C9, as amended.  For every n and every tracker with at least one
    slot (any tracker when n < 2), parallel_fib_lb(n, lb) returns the
    value of parallel_fib(n): the schedule that runs the first branch
    before the second returns it whenever each measurement falls on a
    slot of the tracker; in every interleaving of the branches, what
    has been run so far can be run to the end and ends with that
    value; no run goes on for ever; and every completed run returned
    that value. *)
Theorem parallel_fib_lb_returns_parallel_fib (n : Z) (lb : load_balance) :
  n < 2 \/ tbb lb <> [] ->
  (forall index_of k,
     (2 <= n -> forall j, (index_of j < List.length (tbb lb))%nat) ->
     exists k' lb', parallel_fib_lb index_of n k lb = Returns (parallel_fib n, k', lb'))
  /\ (forall c, lb_steps (lb, Call n) c ->
        exists lb', lb_steps c (lb', Done (parallel_fib n)))
  /\ Acc (fun c' c : load_balance * task => lb_step c c') (lb, Call n)
  /\ (forall v lb', completed_run n lb v lb' -> v = parallel_fib n).
Proof.
  intros S. split; [|split; [|split]].
  - intros index_of k V. apply parallel_fib_lb_value, V.
  - intros [lb1 t] H. destruct S as [L|N].
    + exists lb. apply leaf_completes; assumption.
    + pose proof (lb_steps_value _ _ H) as E. cbn [snd value_of] in E.
      rewrite <- E. apply task_completes.
      exact (lb_steps_slots _ _ H N).
  - apply lb_runs_end.
  - intros v lb' H. exact (completed_run_value _ _ _ _ H).
Qed.

(** For n = 3 on two slots: the schedule whose measurements fall on
    slot 0 and then on slot 1 returns 2 and leaves one use on each. *)
Lemma parallel_fib_lb_returns_parallel_fib_witness :
  parallel_fib_lb (fun k => Nat.modulo k 2) 3 0 (load_balance_new 2 2)
  = Returns (2, 2%nat, {| allowed := 2; tbb := [1; 1] |})
  /\ (forall index_of k,
        (2 <= 3 -> forall j, (index_of j < List.length (tbb (load_balance_new 2 2)))%nat) ->
        exists k' lb',
          parallel_fib_lb index_of 3 k (load_balance_new 2 2)
          = Returns (parallel_fib 3, k', lb'))
  /\ (forall c, lb_steps (load_balance_new 2 2, Call 3) c ->
        exists lb', lb_steps c (lb', Done (parallel_fib 3)))
  /\ Acc (fun c' c : load_balance * task => lb_step c c') (load_balance_new 2 2, Call 3)
  /\ (forall v lb', completed_run 3 (load_balance_new 2 2) v lb' -> v = parallel_fib 3).
Proof.
  split; [vm_compute; reflexivity|].
  apply (parallel_fib_lb_returns_parallel_fib 3 (load_balance_new 2 2)).
  right. cbn. discriminate.
Defined.

(** C9, the claim as stated fails at n = 2 on a tracker without slots:
    parallel_fib(2) is 1, while the first measurement of
    parallel_fib_lb(2, lb) indexes past the empty vector, which is
    undefined behaviour: the schedule returns nothing, whatever slot
    the thread holds, and no interleaving has a completed run. *)
Lemma parallel_fib_lb_without_slots :
  parallel_fib 2 = 1
  /\ (forall index_of k,
        parallel_fib_lb index_of 2 k (load_balance_new 4 0) = Undefined)
  /\ (forall v lb', ~ completed_run 2 (load_balance_new 4 0) v lb').
Proof.
  split; [reflexivity|split].
  - intros index_of k. rewrite parallel_fib_lb_eq.
    unfold take_measurement. cbn [tbb load_balance_new Z.to_nat repeat Z.ltb Z.compare
                                  Pos.compare Pos.compare_cont].
    destruct (index_of k); reflexivity.
  - intros v lb' H. unfold completed_run in H.
    inversion H as [|c1 c2 c3 S1 S2]; subst.
    inversion S1 as [lb n L|lb lb1 n index L M| | |]; subst; [lia|].
    unfold take_measurement in M. cbn in M. destruct index; discriminate.
Qed.

(** ** The driver of recursive-fib, end to end *)

Section Driver.

Variable rt : runtime.
Hypothesis respected : slots_respected rt.

(** One repetition on a record that allows a worker writes its line. *)
Lemma repetition_returns fib_num nthread run :
  1 <= to_int nthread ->
  exists l,
    recursive_fib.repetition rt fib_num nthread run = Returns l
    /\ decided l = decided_by (fib_num, nthread)
    /\ recursive_fib.total_time l = elapsed rt run
    /\ recursive_fib.throughput l
       = PrimFloat.div (recursive_fib.jobs l) (elapsed rt run)
    /\ recursive_fib.lb_min l <= recursive_fib.lb_max l.
Proof.
  intros A. unfold recursive_fib.repetition.
  destruct (parallel_fib_lb_returns (current_thread_index rt run) fib_num 0
              (load_balance_new (to_int nthread) (max_concurrency rt)))
    as (v & k' & lb' & R & Len).
  { intros j. cbn [tbb load_balance_new]. rewrite repeat_length.
    pose proof (respected run j). lia. }
  rewrite R.
  destruct (lb_steps_shape _ _ (parallel_fib_lb_completed _ _ _ _ _ _ _ R)) as [_ Al].
  cbn [fst allowed load_balance_new] in Al.
  assert (N : sample lb' <> []).
  { intros E. pose proof (sample_length lb') as SL. rewrite E, Al in SL.
    cbn [List.length] in SL. unfold distinct_slots in SL. lia. }
  destruct (calc_statistics_returns _ N) as [s E].
  unfold operator_lshift. rewrite E.
  eexists. split; [reflexivity|]. cbn.
  destruct (calc_statistics_min_max _ _ E) as (Ilo & _ & B).
  repeat split. apply (B _ Ilo).
Qed.

Lemma repetitions_lines fib_num nthread tests :
  1 <= to_int nthread ->
  forall run,
    exists out,
      recursive_fib.repetitions rt fib_num nthread tests run
      = (out, Returns (run + tests)%nat)
      /\ map decided (stdout_of out) = repeat (decided_by (fib_num, nthread)) tests
      /\ map recursive_fib.total_time (stdout_of out) = map (elapsed rt) (seq run tests)
      /\ stderr_of out = [].
Proof.
  intros A. induction tests as [|tests IH]; intros run; cbn [recursive_fib.repetitions].
  - exists []. rewrite Nat.add_0_r. repeat split.
  - destruct (repetition_returns fib_num nthread run A) as (l & R & D & T & _).
    rewrite R. destruct (IH (S run)) as (out & E & Ds & Ts & Er). rewrite E.
    exists (Stdout l :: out).
    replace (S run + tests)%nat with (run + S tests)%nat by lia.
    split; [reflexivity|]. cbn. rewrite D, T.
    unfold stdout_of in Ds, Ts. unfold stderr_of in Er. rewrite Ds, Ts, Er.
    repeat split.
Qed.

Lemma stdout_of_app {L : Type} (a b : list (event L)) :
  stdout_of (a ++ b) = stdout_of a ++ stdout_of b.
Proof. unfold stdout_of. apply flat_map_app. Qed.

Lemma stderr_of_app {L : Type} (a b : list (event L)) :
  stderr_of (a ++ b) = stderr_of a ++ stderr_of b.
Proof. unfold stderr_of. apply flat_map_app. Qed.

Lemma read_loop_lines tests input :
  Forall (fun r => 1 <= to_int (snd r)) input ->
  forall run,
    exists out run',
      recursive_fib.read_loop rt tests input run = (out, Returns run')
      /\ map decided (stdout_of out)
         = flat_map (fun r => repeat (decided_by r) (Z.to_nat tests)) input
      /\ stderr_of out = [].
Proof.
  induction 1 as [|[n nthread] rest A _ IH]; intros run; cbn [recursive_fib.read_loop].
  - exists [], run. repeat split.
  - cbn [snd] in A.
    destruct (repetitions_lines n nthread (Z.to_nat tests) A run) as (out & E & D & _ & Er).
    rewrite E.
    destruct (IH (run + Z.to_nat tests)%nat) as (out' & run' & E' & D' & Er').
    rewrite E'. exists (out ++ out'), run'.
    split; [reflexivity|].
    rewrite stdout_of_app, stderr_of_app, map_app, D, D', Er, Er'.
    split; reflexivity.
Qed.

End Driver.

(** X6.  On a machine whose measurements fall on slots of the arena, with
    arguments that give a count of tests and records that each allow
    a worker, recursive-fib writes for every record, in the order of
    the input, one line per test carrying the record's n, the value of
    parallel_fib(n), the record's nthread and the job count
    threads_created(n) as a double; it writes a diagnostic, the program
    name followed by ": error reading from stdin", and exits with a
    failure exactly when the input did not end at its end of file. *)
Theorem recursive_fib_main_lines (rt : runtime) (progname : string)
    (args : list recursive_fib.argument) (tests : Z) (input : stdin (Z * Z)) :
  slots_respected rt ->
  recursive_fib.parse_arguments args 1 = Returns tests ->
  Forall (fun r => 1 <= to_int (snd r)) (records input) ->
  map decided (stdout_of (fst (recursive_fib.main rt progname args input)))
  = flat_map (fun r => repeat (decided_by r) (Z.to_nat tests)) (records input)
  /\ stderr_of (fst (recursive_fib.main rt progname args input))
     = (if eof input then []
        else [(progname ++ ": error reading from stdin")%string])
  /\ snd (recursive_fib.main rt progname args input)
     = (if eof input then Exit_success else Exit_failure).
Proof.
  intros S P F. unfold recursive_fib.main. rewrite P.
  destruct (read_loop_lines rt S tests (records input) F 0) as (out & run' & E & D & Er).
  rewrite E. destruct (eof input); cbn [fst snd].
  - auto.
  - rewrite stdout_of_app, stderr_of_app, map_app, D, Er. cbn.
    rewrite app_nil_r. auto.
Qed.

Lemma four_slots_respected : slots_respected four_slots.
Proof.
  intros run j. unfold four_slots. cbn [current_thread_index max_concurrency].
  pose proof (Nat.mod_upper_bound j 4 ltac:(discriminate)). lia.
Qed.

Lemma recursive_fib_main_lines_witness :
  map decided
    (stdout_of (fst (recursive_fib.main four_slots "bin/recursive-fib" []
                       {| records := [(5, 1); (10, 4)]; eof := false |})))
  = flat_map (fun r => repeat (decided_by r) (Z.to_nat 1))
      (records {| records := [(5, 1); (10, 4)]; eof := false |})
  /\ stderr_of (fst (recursive_fib.main four_slots "bin/recursive-fib" []
                       {| records := [(5, 1); (10, 4)]; eof := false |}))
     = (if eof {| records := [(5, 1); (10, 4)]; eof := false |}
        then []
        else [("bin/recursive-fib" ++ ": error reading from stdin")%string])
  /\ snd (recursive_fib.main four_slots "bin/recursive-fib" []
            {| records := [(5, 1); (10, 4)]; eof := false |})
     = (if eof {| records := [(5, 1); (10, 4)]; eof := false |}
        then Exit_success else Exit_failure).
Proof.
  apply (recursive_fib_main_lines four_slots "bin/recursive-fib" [] 1).
  - exact four_slots_respected.
  - reflexivity.
  - repeat constructor; vm_compute; discriminate.
Defined.

(** ** The pinning observer: the units given and the first failure *)

Section Pinning.

Variable sched_setaffinity : Z -> option string.

Lemma scheduler_entries_outcome joins :
  forall o,
    nprocs o <> 0 ->
    0 <= counter o < 2 ^ 32 ->
    match snd (scheduler_entries sched_setaffinity joins o) with
    | Returns o' =>
        List.length (fst (scheduler_entries sched_setaffinity joins o))
        = List.length joins
        /\ nprocs o' = nprocs o
    | Dies d =>
        (List.length (fst (scheduler_entries sched_setaffinity joins o))
         < List.length joins)%nat
        /\ exists e,
             d = ("sched_setaffinity: " ++ e)%string
             /\ sched_setaffinity
                  (to_unsigned
                     (counter o
                      + Z.of_nat (List.length
                                    (fst (scheduler_entries sched_setaffinity joins o))))
                   mod nprocs o)
                = Some e
    | Undefined => False
    end.
Proof.
  induction joins as [|w rest IH]; intros o N R; cbn [scheduler_entries].
  - cbn. auto.
  - unfold on_scheduler_entry. destruct (Z.eqb_spec (nprocs o) 0) as [E|_]; [contradiction|].
    destruct (sched_setaffinity (counter o mod nprocs o)) as [e|] eqn:S.
    + cbn. split; [lia|]. exists e. split; [reflexivity|].
      rewrite Z.add_0_r. unfold to_unsigned.
      rewrite (Z.mod_small (counter o) (2 ^ 32)) by exact R. exact S.
    + specialize (IH {| nprocs := nprocs o; counter := to_unsigned (counter o + 1) |}).
      cbn [nprocs counter] in IH.
      specialize (IH N (to_unsigned_range _)).
      destruct (scheduler_entries sched_setaffinity rest _) as [cpus r].
      cbn [fst snd List.length] in *.
      destruct r as [o'|d|].
      * destruct IH as [L N']. split; [lia|exact N'].
      * destruct IH as [L (e & -> & S')]. split; [lia|].
        exists e. split; [reflexivity|].
        rewrite to_unsigned_succ in S'. exact S'.
      * exact IH.
Qed.

End Pinning.

(** X7.  With U hardware units, whatever [sched_setaffinity] answers: every
    unit given out is one of 0 .. U-1; the entries never reach
    undefined behaviour; if they all return, every entry was given a
    unit; and if the process dies, it dies at the first entry whose
    [sched_setaffinity] fails, with that call's error after the text
    "sched_setaffinity: ", the entries before it having been pinned. *)
Theorem pinning_units_and_failure (sched_setaffinity : Z -> option string)
    (get_nprocs : Z) (joins : list bool) :
  0 < get_nprocs < 2 ^ 31 ->
  Forall (fun cpu => 0 <= cpu < get_nprocs)
    (fst (scheduler_entries sched_setaffinity joins (pinning_observer_new get_nprocs)))
  /\ snd (scheduler_entries sched_setaffinity joins (pinning_observer_new get_nprocs))
     <> Undefined
  /\ (forall o,
        snd (scheduler_entries sched_setaffinity joins (pinning_observer_new get_nprocs))
        = Returns o ->
        List.length (fst (scheduler_entries sched_setaffinity joins
                            (pinning_observer_new get_nprocs)))
        = List.length joins)
  /\ (forall d,
        snd (scheduler_entries sched_setaffinity joins (pinning_observer_new get_nprocs))
        = Dies d ->
        (List.length (fst (scheduler_entries sched_setaffinity joins
                             (pinning_observer_new get_nprocs)))
         < List.length joins)%nat
        /\ exists e,
             d = ("sched_setaffinity: " ++ e)%string
             /\ sched_setaffinity
                  ((Z.of_nat (List.length
                                (fst (scheduler_entries sched_setaffinity joins
                                        (pinning_observer_new get_nprocs))))
                    mod 2 ^ 32) mod get_nprocs)
                = Some e).
Proof.
  intros U.
  assert (N : nprocs (pinning_observer_new get_nprocs) = get_nprocs).
  { cbn. unfold to_unsigned. apply Z.mod_small. lia. }
  pose proof (scheduler_entries_outcome sched_setaffinity joins
                (pinning_observer_new get_nprocs)) as O.
  rewrite N in O. specialize (O ltac:(lia) ltac:(cbn; lia)).
  split; [|split; [|split]].
  - apply Forall_forall. intros cpu I.
    destruct (In_nth_error _ _ I) as [k E].
    apply scheduler_entries_nth in E; [|cbn; lia].
    rewrite N in E. subst cpu. apply Z.mod_pos_bound. lia.
  - intros E. rewrite E in O. exact O.
  - intros o E. rewrite E in O. exact (proj1 O).
  - intros d E. rewrite E in O. destruct O as [L (e & -> & S)].
    split; [exact L|]. exists e. split; [reflexivity|].
    cbn [counter pinning_observer_new] in S. rewrite Z.add_0_l in S. exact S.
Qed.

Lemma pinning_units_and_failure_witness :
  Forall (fun cpu => 0 <= cpu < 3)
    (fst (scheduler_entries (fun cpu => if cpu =? 2 then Some "EINVAL"%string else None)
            [true; true; false; true] (pinning_observer_new 3)))
  /\ snd (scheduler_entries (fun cpu => if cpu =? 2 then Some "EINVAL"%string else None)
            [true; true; false; true] (pinning_observer_new 3))
     = Dies "sched_setaffinity: EINVAL".
Proof.
  split.
  - apply (pinning_units_and_failure
             (fun cpu => if cpu =? 2 then Some "EINVAL"%string else None) 3
             [true; true; false; true]). lia.
  - reflexivity.
Defined.

(** ** The driver of noploop, end to end *)

Lemma stdout_of_stderr {L : Type} (m : string) (out : list (event L)) :
  stdout_of (Stderr m :: out) = stdout_of out.
Proof. reflexivity. Qed.

Lemma stderr_of_stderr {L : Type} (m : string) (out : list (event L)) :
  stderr_of (Stderr m :: out) = m :: stderr_of out.
Proof. reflexivity. Qed.

Lemma stdout_of_stdout {L : Type} (l : L) (out : list (event L)) :
  stdout_of (Stdout l :: out) = l :: stdout_of out.
Proof. reflexivity. Qed.

Lemma stderr_of_stdout {L : Type} (l : L) (out : list (event L)) :
  stderr_of (Stdout l :: out) = stderr_of out.
Proof. reflexivity. Qed.

Lemma noploop_repetitions_lines rt method threads iterations count :
  forall run,
    map (fun l => (noploop.method l, noploop.threads l, noploop.iterations l))
      (stdout_of (fst (noploop.repetitions rt method threads iterations count run)))
    = repeat (method, threads, iterations) count
    /\ stderr_of (fst (noploop.repetitions rt method threads iterations count run)) = []
    /\ map noploop.time
         (stdout_of (fst (noploop.repetitions rt method threads iterations count run)))
       = map (elapsed rt) (seq run count).
Proof.
  induction count as [|count IH]; intros run; cbn [noploop.repetitions].
  - repeat split.
  - destruct (IH (S run)) as (D & E & T).
    destruct (noploop.repetitions rt method threads iterations count (S run)) as [out r].
    cbn [fst] in *.
    rewrite stdout_of_stdout, stderr_of_stdout, E. cbn [map repeat seq noploop.method
      noploop.threads noploop.iterations noploop.time].
    rewrite D, T. repeat split.
Qed.

Lemma noploop_read_loop_lines rt count input :
  forall run,
    map (fun l => (noploop.method l, noploop.threads l, noploop.iterations l))
      (stdout_of (noploop.read_loop rt count input run))
    = flat_map (fun r => match noploop_diagnostic r with
                         | None => repeat r (Z.to_nat count)
                         | Some _ => []
                         end) input
    /\ stderr_of (noploop.read_loop rt count input run)
       = flat_map (fun r => match noploop_diagnostic r with
                            | None => []
                            | Some m => [m]
                            end) input.
Proof.
  induction input as [|[[method threads] iterations] rest IH]; intros run;
    cbn [noploop.read_loop flat_map noploop_diagnostic].
  - split; reflexivity.
  - destruct (threads <? 2).
    + destruct (IH run) as [D E].
      rewrite stdout_of_stderr, stderr_of_stderr, D, E. split; reflexivity.
    + destruct ((0 <=? method) && (method <=? 3)).
      * pose proof (noploop_repetitions_lines rt method threads iterations
                      (Z.to_nat count) run) as (D & E & _).
        destruct (noploop.repetitions rt method threads iterations (Z.to_nat count) run)
          as [out run'].
        cbn [fst] in *. destruct (IH run') as [D' E'].
        rewrite stdout_of_app, stderr_of_app, map_app, D, D', E, E'. split; reflexivity.
      * destruct (IH run) as [D E].
        rewrite stdout_of_stderr, stderr_of_stderr, D, E. split; reflexivity.
Qed.

(** X8.  With a count of at least 1, noploop goes through every record of
    the input in order: a record with fewer than 2 threads gets the
    diagnostic "Threads must be < 2", whatever its method; a record
    with at least 2 threads and a method outside 0..3 gets "Method
    must be in {0, 1, 2, 3}"; every other record gets [count] lines
    with its three fields; a diagnostic never ends the loop.  After
    the last record the process returns 0 at the end of file, and
    otherwise writes "Could not read from cin" and returns 1. *)
Theorem noploop_main_lines (rt : runtime) (args : noploop.arguments) (count : Z)
    (input : stdin (Z * Z * Z)) :
  noploop.parse_arguments args = Returns count ->
  1 <= count ->
  map (fun l => (noploop.method l, noploop.threads l, noploop.iterations l))
    (stdout_of (fst (noploop.main rt args input)))
  = flat_map (fun r => match noploop_diagnostic r with
                       | None => repeat r (Z.to_nat count)
                       | Some _ => []
                       end) (records input)
  /\ stderr_of (fst (noploop.main rt args input))
     = flat_map (fun r => match noploop_diagnostic r with
                          | None => []
                          | Some m => [m]
                          end) (records input)
       ++ (if eof input then [] else ["Could not read from cin"%string])
  /\ snd (noploop.main rt args input)
     = (if eof input then Exit_success else Exit_failure).
Proof.
  intros P C. unfold noploop.main. rewrite P.
  destruct (Z.ltb_spec count 1) as [L|_]; [lia|].
  destruct (noploop_read_loop_lines rt count (records input) 0) as [D E].
  destruct (eof input); cbn [fst snd].
  - rewrite D, E, app_nil_r. auto.
  - rewrite stdout_of_app, stderr_of_app, map_app, D, E. cbn.
    rewrite app_nil_r. auto.
Qed.

Lemma noploop_main_lines_witness :
  map (fun l => (noploop.method l, noploop.threads l, noploop.iterations l))
    (stdout_of (fst (noploop.main four_slots (noploop.Count_option (Some 2))
                       {| records := [(7, 1, 10); (7, 2, 10); (1, 2, 10)];
                          eof := true |})))
  = [(1, 2, 10); (1, 2, 10)]
  /\ stderr_of (fst (noploop.main four_slots (noploop.Count_option (Some 2))
                       {| records := [(7, 1, 10); (7, 2, 10); (1, 2, 10)];
                          eof := true |}))
     = ["Threads must be < 2"%string; "Method must be in {0, 1, 2, 3}"%string]
  /\ snd (noploop.main four_slots (noploop.Count_option (Some 2))
            {| records := [(7, 1, 10); (7, 2, 10); (1, 2, 10)]; eof := true |})
     = Exit_success.
Proof.
  apply (noploop_main_lines four_slots (noploop.Count_option (Some 2)) 2
           {| records := [(7, 1, 10); (7, 2, 10); (1, 2, 10)]; eof := true |}).
  - reflexivity.
  - lia.
Defined.

(** ** The lock benchmark *)

(** X9.  [parse_args] of mutexes.cpp returns exactly when there is one
    argument, read to
    its end, whose value is not [ULONG_MAX]; the greatest [u64] is
    refused as an overflow, and before the test of the end of the
    string; the function has no undefined behaviour. *)
Theorem mutexes_parse_args_accepts (progname : string) (args : list mutexes.argument)
    (n : Z) :
  (mutexes.parse_args progname args = Returns n <->
   exists a, args = [a] /\ mutexes.strtoul a = n /\ n <> 2 ^ 64 - 1
             /\ mutexes.at_end a = true)
  /\ (forall a, args = [a] -> mutexes.strtoul a = 2 ^ 64 - 1 ->
        mutexes.parse_args progname args
        = Dies (mutexes.text a ++ " overflows uint64_t")%string)
  /\ (List.length args <> 1%nat ->
      mutexes.parse_args progname args
      = Dies ("usage: " ++ progname ++ " <n_iterations>")%string)
  /\ mutexes.parse_args progname args <> Undefined.
Proof.
  unfold mutexes.parse_args.
  destruct args as [|a [|b rest]].
  - split; [split; [discriminate|intros (a & E & _); discriminate]|].
    split; [intros a E; discriminate|]. split; [reflexivity|discriminate].
  - destruct (Z.eqb_spec (mutexes.strtoul a) (2 ^ 64 - 1)) as [O|O].
    + split; [split; [discriminate|]|].
      * intros (a' & E & V & N & _). injection E as <-. congruence.
      * split; [intros a' E _; injection E as <-; reflexivity|].
        split; [intros H; contradiction H; reflexivity|discriminate].
    + destruct (mutexes.at_end a) eqn:E; cbn [negb].
      * split; [split|].
        -- intros H. injection H as <-. exists a. auto.
        -- intros (a' & E' & V & _). injection E' as <-. congruence.
        -- split; [intros a' E' V; injection E' as <-; contradiction|].
           split; [intros H; contradiction H; reflexivity|discriminate].
      * split; [split; [discriminate|]|].
        -- intros (a' & E' & _ & _ & T). injection E' as <-. congruence.
        -- split; [intros a' E' V; injection E' as <-; contradiction|].
           split; [intros H; contradiction H; reflexivity|discriminate].
  - split; [split; [discriminate|intros (a' & E & _); discriminate]|].
    split; [intros a' E; discriminate|]. split; [reflexivity|discriminate].
Qed.

Section Deque.

Variable capacity : Z.








End Deque.



(** ** Arguments below 2 and the empty sample *)

Lemma done_is_final lb v c : lb_step (lb, Done v) c -> False.
Proof. intros H. inversion H. Qed.

Lemma leaf_run n lb v lb' :
  n < 2 -> completed_run n lb v lb' -> v = to_u64 n /\ lb' = lb.
Proof.
  unfold completed_run. intros L H.
  inversion H as [|c1 c2 c3 S1 S2]; subst.
  inversion S1; subst; [|lia].
  inversion S2 as [|d1 d2 d3 T1 T2]; subst.
  - auto.
  - exfalso. exact (done_is_final _ _ _ T1).
Qed.

(** X11.  An argument below 2 is answered at once, negative ones included:
    the workload returns the argument converted to [u64], which is
    2^64 + n for a negative [int], the job count is 0, and no run of
    the instrumented workload, in any interleaving and on any tracker,
    takes a measurement: the tracker is left as it was, even one
    without slots. *)
Theorem workload_below_two (n : Z) (lb : load_balance) :
  n < 2 ->
  parallel_fib n = to_u64 n
  /\ (0 <= n -> parallel_fib n = n)
  /\ (- 2 ^ 31 <= n < 0 -> parallel_fib n = 2 ^ 64 + n)
  /\ threads_created n = 0
  /\ completed_run n lb (to_u64 n) lb
  /\ (forall v lb', completed_run n lb v lb' -> lb' = lb)
  /\ (forall index_of k,
        parallel_fib_lb index_of n k lb = Returns (to_u64 n, k, lb)).
Proof.
  intros L.
  assert (E : parallel_fib n = to_u64 n).
  { rewrite parallel_fib_eq. destruct (Z.ltb_spec n 2); [reflexivity|lia]. }
  split; [exact E|]. split; [|split; [|split; [|split; [|split]]]].
  - intros P. rewrite E. apply to_u64_small. lia.
  - intros N. rewrite E. unfold to_u64.
    replace n with (2 ^ 64 + n + -1 * 2 ^ 64) at 1 by lia.
    rewrite Z.mod_add by lia. apply Z.mod_small. lia.
  - rewrite threads_created_eq. destruct (Z.ltb_spec n 2); [reflexivity|lia].
  - eapply steps_cons; [apply step_leaf, L|apply steps_refl].
  - intros v lb' H. exact (proj2 (leaf_run _ _ _ _ L H)).
  - intros index_of k. rewrite parallel_fib_lb_eq.
    destruct (Z.ltb_spec n 2); [reflexivity|lia].
Qed.

Lemma workload_below_two_witness :
  parallel_fib (-1) = to_u64 (-1)
  /\ (0 <= -1 -> parallel_fib (-1) = -1)
  /\ (- 2 ^ 31 <= -1 < 0 -> parallel_fib (-1) = 2 ^ 64 + -1)
  /\ threads_created (-1) = 0
  /\ completed_run (-1) (load_balance_new 4 0) (to_u64 (-1)) (load_balance_new 4 0)
  /\ (forall v lb', completed_run (-1) (load_balance_new 4 0) v lb' ->
                    lb' = load_balance_new 4 0)
  /\ (forall index_of k,
        parallel_fib_lb index_of (-1) k (load_balance_new 4 0)
        = Returns (to_u64 (-1), k, load_balance_new 4 0)).
Proof. apply (workload_below_two (-1) (load_balance_new 4 0)). lia. Defined.

Lemma remove_copy_zeros k : remove_copy (repeat 0 k) 0 = [].
Proof. induction k as [|k IH]; [reflexivity|exact IH]. Qed.

Lemma sample_of_fresh_tracker a slots :
  sample (load_balance_new a slots) = repeat 0 (Z.to_nat a).
Proof.
  unfold sample, load_balance_new, fill_n. cbn [tbb allowed].
  rewrite remove_copy_zeros. cbn [List.length app]. f_equal. f_equal. lia.
Qed.

(** X12.  A record whose n is below 2 and whose worker count, as an
    [int], is not positive leaves [operator<<] with an empty sample:
    its repetition has undefined behaviour and nothing is reported.
    With such a record first, recursive-fib writes nothing at all. *)
Theorem recursive_fib_record_without_sample (rt : runtime) (progname : string)
    (args : list recursive_fib.argument) (tests n nthread : Z)
    (rest : list (Z * Z)) (at_eof : bool) :
  recursive_fib.parse_arguments args 1 = Returns tests ->
  n < 2 ->
  to_int nthread <= 0 ->
  (forall run, recursive_fib.repetition rt n nthread run = Undefined)
  /\ recursive_fib.main rt progname args
       {| records := (n, nthread) :: rest; eof := at_eof |}
     = ([], Undefined_behaviour).
Proof.
  intros P L A.
  assert (R : forall run, recursive_fib.repetition rt n nthread run = Undefined).
  { intros run. unfold recursive_fib.repetition.
    rewrite parallel_fib_lb_eq. destruct (Z.ltb_spec n 2); [|lia].
    unfold operator_lshift. rewrite sample_of_fresh_tracker.
    replace (Z.to_nat (to_int nthread)) with O by lia. reflexivity. }
  split; [exact R|].
  assert (T : 1 <= tests).
  { destruct args as [|a args'].
    - cbn in P. injection P as <-. lia.
    - apply parse_arguments_returns in P. destruct P as [F ->].
      apply last_argument_positive; [discriminate|exact F]. }
  unfold recursive_fib.main. rewrite P. cbn [records recursive_fib.read_loop].
  destruct (Z.to_nat tests) as [|k] eqn:K; [lia|].
  cbn [recursive_fib.repetitions]. rewrite R. reflexivity.
Qed.

Lemma recursive_fib_record_without_sample_witness :
  (forall run, recursive_fib.repetition four_slots 1 0 run = Undefined)
  /\ recursive_fib.main four_slots "recursive-fib" []
       {| records := [(1, 0); (10, 4)]; eof := true |}
     = ([], Undefined_behaviour).
Proof.
  apply (recursive_fib_record_without_sample four_slots "recursive-fib" [] 1 1 0
           [(10, 4)] true).
  - reflexivity.
  - lia.
  - vm_compute. discriminate.
Defined.

(** ** No record of recursive-fib is turned down *)






